(** * CSQLite shim (Sources/CSQLite/shim.h) and the storage engine behind it

    The shim is a C header of three [static inline] wrappers around the
    variadic SQLite entry points [sqlite3_config] and [sqlite3_db_config],
    followed by the declarations of the snapshot interface.  The wrappers
    are embedded as programs that issue calls to the external library
    ([Module Shim]); the behaviour of the library itself is a parameter of
    every statement that needs it.  The snapshot interface is only declared
    by the header; the engine it opens onto is modelled from the
    specification ([Module Engine]). *)

From Stdlib Require Import ZArith NArith List String Lia.
From stdpp Require Import base option list sorting gmap strings.

Local Open Scope Z_scope.

(* ===================================================================== *)
(** ** The shim: wrappers around the variadic calls *)
(* ===================================================================== *)

Module Shim.

(** *** C values *)

(** Pointers are addresses; [sqlite3 *] and function pointers are pointers. *)
Definition ptr := Z.
Definition NULL : ptr := 0.

(** [sqlite3 *db]: a database handle. *)
Definition sqlite3 := ptr.

(** The function pointer type [errorLogCallback]: a callback taking
    [void *pArg], [int iErrCode] and [const char *zMsg] and returning [void]. *)
Definition errorLogCallback := ptr.

(** The option names the header takes from <sqlite3.h>.  Only the names
    matter to the wrappers, they are kept symbolic. *)
Inductive config_option := SQLITE_CONFIG_LOG.
Inductive dbconfig_option := SQLITE_DBCONFIG_DQS_DDL | SQLITE_DBCONFIG_DQS_DML.

#[global] Instance dbconfig_option_eq_dec : EqDecision dbconfig_option.
Proof. solve_decision. Defined.

(** An argument in the variadic part of a call, with the C type it is
    passed at: [0] is an [int], [(void * )0] a pointer, [callback] a function
    pointer. *)
Inductive c_arg :=
| Arg_int (n : Z)
| Arg_ptr (p : ptr)
| Arg_fn (f : errorLogCallback).

(** What [va_arg(ap, void * )] reads from an argument: the integer constant
    zero reads as the null pointer. *)
Definition va_arg_ptr (a : c_arg) : ptr :=
  match a with
  | Arg_int n => n
  | Arg_ptr p => p
  | Arg_fn f => f
  end.

(** What [va_arg(ap, int)] reads from an argument. *)
Definition va_arg_int (a : c_arg) : Z :=
  match a with
  | Arg_int n => n
  | Arg_ptr p => p
  | Arg_fn f => f
  end.

(** The two external entry points the header calls. *)
Inductive ext_call :=
| sqlite3_config (op : config_option) (args : list c_arg)
| sqlite3_db_config (db : sqlite3) (op : dbconfig_option) (args : list c_arg).

(** *** Programs over the external library

    A wrapper body is a sequence of external calls; each call returns an
    [int] result code to its continuation. *)
Inductive stmt (A : Type) : Type :=
| Return (a : A)
| Call (c : ext_call) (k : Z -> stmt A).
Arguments Return {A} a.
Arguments Call {A} c k.

Fixpoint bind {A B} (p : stmt A) (f : A -> stmt B) : stmt B :=
  match p with
  | Return a => f a
  | Call c k => Call c (fun r => bind (k r) f)
  end.

(** An expression statement [f(...);]: the call is made and its value dropped. *)
Definition call_ (c : ext_call) : stmt unit := Call c (fun _ => Return tt).

Notation "c1 ;;; c2" := (bind c1 (fun _ => c2))
  (at level 100, c2 at level 200, right associativity).

Section Wrappers.

(** [SQLITE_VERSION_NUMBER] of the <sqlite3.h> the header is compiled with. *)
Variable SQLITE_VERSION_NUMBER : Z.

(** shim.h, lines 7-9. *)
Definition registerErrorLogCallback (callback : errorLogCallback) : stmt unit :=
  call_ (sqlite3_config SQLITE_CONFIG_LOG [Arg_fn callback; Arg_int 0]).

(** shim.h, lines 11-28: [#if SQLITE_VERSION_NUMBER >= 3029000] selects the
    two-call bodies, [#else] the empty ones. *)
Definition disableDoubleQuotedStringLiterals (db : sqlite3) : stmt unit :=
  if 3029000 <=? SQLITE_VERSION_NUMBER then
    call_ (sqlite3_db_config db SQLITE_DBCONFIG_DQS_DDL [Arg_int 0; Arg_ptr 0]) ;;;
    call_ (sqlite3_db_config db SQLITE_DBCONFIG_DQS_DML [Arg_int 0; Arg_ptr 0])
  else Return tt.

Definition enableDoubleQuotedStringLiterals (db : sqlite3) : stmt unit :=
  if 3029000 <=? SQLITE_VERSION_NUMBER then
    call_ (sqlite3_db_config db SQLITE_DBCONFIG_DQS_DDL [Arg_int 1; Arg_ptr 0]) ;;;
    call_ (sqlite3_db_config db SQLITE_DBCONFIG_DQS_DML [Arg_int 1; Arg_ptr 0])
  else Return tt.

End Wrappers.

(** *** Running a program against a library

    [exec c s] is what the library does with call [c] in state [s]: the
    next state and the [int] it returns. *)
Section Run.
Context {lib : Type}.
Variable exec : ext_call -> lib -> lib * Z.

Fixpoint run {A} (p : stmt A) (s : lib) : lib * A :=
  match p with
  | Return a => (s, a)
  | Call c k => let '(s', r) := exec c s in run (k r) s'
  end.

(** The calls a program makes, in order. *)
Fixpoint calls {A} (p : stmt A) (s : lib) : list ext_call :=
  match p with
  | Return _ => []
  | Call c k => let '(s', r) := exec c s in c :: calls (k r) s'
  end.

(** The state in which a sequence of calls leaves the library. *)
Definition exec_all (cs : list ext_call) (s : lib) : lib :=
  fold_left (fun s c => (exec c s).1) cs s.

End Run.

(** *** What the wrappers rely on from the library

    <sqlite3.h> and the library behind it are not part of the shim.  The
    statements about the effect of a wrapper are made for every library
    [exec] that honours the documented behaviour of the two options used,
    written down here as contracts over observations of its state. *)

(** Result code [SQLITE_OK] of <sqlite3.h>. *)
Definition SQLITE_OK : Z := 0.

Section Contracts.
Context {lib : Type}.
Variable exec : ext_call -> lib -> lib * Z.

(** [dqs s db op]: the value (0 or 1) of the double-quoted-string-literal
    flag [op] of connection [db]. *)
Variable dqs : lib -> sqlite3 -> dbconfig_option -> Z.

(** [sqlite3_db_config(db, op, onoff, (void * )0)] with [onoff] 0 or 1 sets
    flag [op] of [db] to [onoff] and changes no other flag. *)
Record db_config_contract : Prop := {
  db_config_sets : forall s db op onoff,
    onoff = 0 \/ onoff = 1 ->
    dqs (exec (sqlite3_db_config db op [Arg_int onoff; Arg_ptr NULL]) s).1 db op = onoff;
  db_config_keeps : forall s db op onoff db' op',
    onoff = 0 \/ onoff = 1 ->
    (db', op') <> (db, op) ->
    dqs (exec (sqlite3_db_config db op [Arg_int onoff; Arg_ptr NULL]) s).1 db' op'
    = dqs s db' op'
}.

(** [logger s]: the registered error-log callback and the context pointer
    kept with it. *)
Variable logger : lib -> option (errorLogCallback * ptr).

(** [sqlite3_config(SQLITE_CONFIG_LOG, f, a)], when it reports [SQLITE_OK],
    has registered [f] with context [a]. *)
Record config_log_contract : Prop := {
  config_log_registers : forall s f a,
    (exec (sqlite3_config SQLITE_CONFIG_LOG [Arg_fn f; a]) s).2 = SQLITE_OK ->
    logger (exec (sqlite3_config SQLITE_CONFIG_LOG [Arg_fn f; a]) s).1
    = Some (f, va_arg_ptr a)
}.

End Contracts.

(** One invocation of an error-log callback, [fn(pArg, iErrCode, zMsg)],
    with the parameters in the order of the [errorLogCallback] typedef. *)
Record invocation := {
  inv_fn : errorLogCallback;
  inv_pArg : ptr;
  inv_iErrCode : Z;
  inv_zMsg : string
}.

(** The library logging [(iErrCode, zMsg)]: the registered callback is
    invoked with the context pointer registered with it; where none is
    registered, or the registered function pointer is null, logging invokes
    nothing. *)
Definition deliver (lg : option (errorLogCallback * ptr)) (iErrCode : Z) (zMsg : string)
  : option invocation :=
  match lg with
  | Some (f, a) =>
      if decide (f = NULL) then None
      else Some {| inv_fn := f; inv_pArg := a; inv_iErrCode := iErrCode; inv_zMsg := zMsg |}
  | None => None
  end.

(** The library of [exec] with its result codes replaced by [rc]. *)
Definition with_result_codes {lib} (exec : ext_call -> lib -> lib * Z)
    (rc : ext_call -> lib -> Z) : ext_call -> lib -> lib * Z :=
  fun c s => ((exec c s).1, rc c s).

(** *** The declarations of the header (shim.h, lines 3-52) *)

Inductive c_type :=
| T_void
| T_int
| T_unsigned_char
| T_const_char
| T_named (name : string)          (* [sqlite3], [sqlite3_snapshot] *)
| T_ptr (t : c_type)
| T_array (t : c_type) (n : N).

Inductive declaration :=
| Decl_typedef_fnptr (name : string) (result : c_type) (params : list c_type)
| Decl_inline_function (name : string) (result : c_type) (params : list c_type)
| Decl_struct (name : string) (members : list (string * c_type))
| Decl_prototype (name : string) (result : c_type) (params : list c_type).

(** [sizeof] where the C standard fixes it: character types have size 1,
    an array is its elements laid end to end. *)
Fixpoint sizeof (t : c_type) : option N :=
  match t with
  | T_unsigned_char | T_const_char => Some 1%N
  | T_array t n => (fun sz => n * sz)%N <$> sizeof t
  | _ => None
  end.

(** A struct whose members all have alignment 1 has no padding. *)
Definition struct_sizeof (members : list (string * c_type)) : option N :=
  foldr (fun m acc => sz ← sizeof m.2; total ← acc; Some (sz + total)%N) (Some 0%N) members.

(** Lines 31-52, under [#ifndef SQLITE_ENABLE_SNAPSHOT]. *)
Definition snapshot_declarations : list declaration :=
  [ Decl_struct "sqlite3_snapshot" [("hidden", T_array T_unsigned_char 48)];
    Decl_prototype "sqlite3_snapshot_get" T_int
      [T_ptr (T_named "sqlite3"); T_ptr T_const_char; T_ptr (T_ptr (T_named "sqlite3_snapshot"))];
    Decl_prototype "sqlite3_snapshot_open" T_int
      [T_ptr (T_named "sqlite3"); T_ptr T_const_char; T_ptr (T_named "sqlite3_snapshot")];
    Decl_prototype "sqlite3_snapshot_free" T_void
      [T_ptr (T_named "sqlite3_snapshot")];
    Decl_prototype "sqlite3_snapshot_cmp" T_int
      [T_ptr (T_named "sqlite3_snapshot"); T_ptr (T_named "sqlite3_snapshot")];
    Decl_prototype "sqlite3_snapshot_recover" T_int
      [T_ptr (T_named "sqlite3"); T_ptr T_const_char] ].

(** The header after preprocessing; [SQLITE_ENABLE_SNAPSHOT] tells whether
    <sqlite3.h> defines the macro of that name. *)
Definition shim_declarations (SQLITE_ENABLE_SNAPSHOT : bool) : list declaration :=
  [ Decl_typedef_fnptr "errorLogCallback" T_void [T_ptr T_void; T_int; T_ptr T_const_char];
    Decl_inline_function "registerErrorLogCallback" T_void [T_named "errorLogCallback"];
    Decl_inline_function "disableDoubleQuotedStringLiterals" T_void [T_ptr (T_named "sqlite3")];
    Decl_inline_function "enableDoubleQuotedStringLiterals" T_void [T_ptr (T_named "sqlite3")] ]
  ++ (if SQLITE_ENABLE_SNAPSHOT then [] else snapshot_declarations).

(** The names a declaration list declares without defining, defines as
    functions, and the structs it defines with their members. *)
Definition declared_only (ds : list declaration) : list string :=
  omap (fun d => match d with Decl_prototype n _ _ => Some n | _ => None end) ds.

Definition defined_functions (ds : list declaration) : list string :=
  omap (fun d => match d with Decl_inline_function n _ _ => Some n | _ => None end) ds.

Definition structs (ds : list declaration) : list (string * list (string * c_type)) :=
  omap (fun d => match d with Decl_struct n ms => Some (n, ms) | _ => None end) ds.

End Shim.

(* ===================================================================== *)
(** ** The engine behind the snapshot interface *)
(* ===================================================================== *)

(** The header declares [sqlite3_snapshot_get], [_open], [_cmp], [_free] and
    [_recover] and defines none of them; the write-ahead log and the
    snapshot manager they operate on are described by the specification
    only.  Every definition of this module is written from those
    sections. *)
Module Engine.

Local Open Scope N_scope.

(** Modelled from the spec: section 3 (data model); the page store, the
    WAL and the snapshot manager are absent from the sources.  A
    [CommitSequence] is the strictly increasing counter of that section, one
    per committed transaction and never reused; the width of the counter
    (64 bits) and of a page number (4 bytes on file) is not modelled. *)
Definition PageNumber := N.
Definition CommitSequence := N.
Definition bytes := list Byte.byte.

(** Modelled from the spec: section 3, Frame: one versioned page image
    with [PageNumber], [CommitSequence] and raw bytes. *)
Record Frame := {
  frame_page : PageNumber;
  frame_seq : CommitSequence;
  frame_bytes : bytes
}.

(** Modelled from the spec: section 3, Snapshot: an opaque handle capturing
    a [CommitSequence] boundary.  [snap_handle] is the identity of the
    handle: several handles may share one boundary (section 4.3). *)
Record Snapshot := {
  snap_handle : nat;
  boundary : CommitSequence
}.

(** Modelled from the spec: section 4.3, the results of [compare]. *)
Inductive Ordering := Before | Same | After.

(** Modelled from the spec: section 7, the error taxonomy, and section 8,
    the rejection of a [release] of a Snapshot that is not live. *)
Inductive Error :=
| IOFailure
| Corruption
| WriteConflict
| InvalidToken
| PageNotFound
| SnapshotNotLive.

(** Modelled from the spec: sections 3 and 4.3, the coordinator's context:
    the WAL (oldest frame first), the ReadMark, and the registry of live
    Snapshots with the reference count of each pinned boundary. *)
Record state := {
  wal : list Frame;
  read_mark : CommitSequence;
  live : gmap nat CommitSequence;
  refcount : gmap CommitSequence nat;
  next_handle : nat
}.

(** Modelled from the spec: a coordinator on an empty store: no frame, no
    commit, no Snapshot. *)
Definition init : state :=
  {| wal := []; read_mark := 0; live := ∅; refcount := ∅; next_handle := 0 |}.

(** *** Write-ahead log (section 4.2) *)

(** The frames of one commit: every page image with the commit's sequence. *)
Definition mkFrames (seq : CommitSequence) (pages : list (PageNumber * bytes)) : list Frame :=
  map (fun p => {| frame_page := p.1; frame_seq := seq; frame_bytes := p.2 |}) pages.

(** Modelled from the spec: section 4.2, [appendFrames(CommitSequence,
    ordered sequence of (PageNumber, bytes))]. *)
Definition appendFrames (seq : CommitSequence) (pages : list (PageNumber * bytes))
    (w : list Frame) : list Frame :=
  w ++ mkFrames seq pages.

(** A frame of page [pn] that a reader at boundary [S] may see. *)
Definition visible (pn : PageNumber) (S : CommitSequence) (f : Frame) : bool :=
  (frame_page f =? pn) && (frame_seq f <=? S).

(** Modelled from the spec: section 4.2, [frameIndex.lookup(PageNumber,
    CommitSequence) -> optional Frame]: the newest frame for that page with
    [CommitSequence <= boundary], else none. *)
Fixpoint frameIndex_lookup (w : list Frame) (pn : PageNumber) (S : CommitSequence)
    : option Frame :=
  match w with
  | [] => None
  | f :: w' =>
      match frameIndex_lookup w' pn S with
      | Some g => Some g
      | None => if visible pn S f then Some f else None
      end
  end.

(** *** Snapshot manager (section 4.3) *)

(** Modelled from the spec: section 4.3, the per-boundary reference count
    of the registry: one more holder of boundary [b], and one fewer, the
    entry going away with the last holder. *)
Definition pin (b : CommitSequence) (rc : gmap CommitSequence nat) : gmap CommitSequence nat :=
  <[b := S (default 0%nat (rc !! b))]> rc.

Definition unpin (b : CommitSequence) (rc : gmap CommitSequence nat) : gmap CommitSequence nat :=
  match rc !! b with
  | Some (S (S n)) => <[b := S n]> rc
  | _ => delete b rc
  end.

(** Modelled from the spec: section 4.3, [capture() -> Snapshot] reads the
    current ReadMark and returns a handle pinning that [CommitSequence].
    Handles are issued in sequence. *)
Definition capture (st : state) : Snapshot * state :=
  let s := {| snap_handle := next_handle st; boundary := read_mark st |} in
  (s, {| wal := wal st;
         read_mark := read_mark st;
         live := <[snap_handle s := boundary s]> (live st);
         refcount := pin (boundary s) (refcount st);
         next_handle := S (next_handle st) |}).

(** Modelled from the spec: section 4.3, [release(Snapshot)] unpins it;
    section 8: on a Snapshot that is not live it is rejected with an error. *)
Definition release (s : Snapshot) (st : state) : Error + state :=
  match live st !! snap_handle s with
  | Some b =>
      inr {| wal := wal st;
             read_mark := read_mark st;
             live := delete (snap_handle s) (live st);
             refcount := unpin b (refcount st);
             next_handle := next_handle st |}
  | None => inl SnapshotNotLive
  end.

(** Modelled from the spec: section 4.3, [compare(Snapshot, Snapshot) ->
    {Before, Same, After}] orders by boundary [CommitSequence]. *)
Definition compare (s1 s2 : Snapshot) : Ordering :=
  match boundary s1 ?= boundary s2 with
  | Lt => Before
  | Eq => Same
  | Gt => After
  end.

(** Modelled from the spec: section 4.2, [minRetainedSequence]: the minimum
    boundary across all live Snapshots, or ReadMark+1 if there is none. *)
Definition minRetainedSequence (st : state) : CommitSequence :=
  match elements (dom (refcount st)) with
  | [] => read_mark st + 1
  | b :: bs => foldr N.min b bs
  end.

(** The number of live handles that pin boundary [b]. *)
Definition holders (b : CommitSequence) (lv : gmap nat CommitSequence) : nat :=
  size (filter (fun hb => hb.2 = b) lv).

(** *** Transaction coordinator (section 4.4) *)

(** Modelled from the spec: section 4.4, [commit()] assigns the next
    [CommitSequence], calls WAL [appendFrames], then advances ReadMark. *)
Definition commit (pages : list (PageNumber * bytes)) (st : state) : state :=
  let seq := read_mark st + 1 in
  {| wal := appendFrames seq pages (wal st);
     read_mark := seq;
     live := live st;
     refcount := refcount st;
     next_handle := next_handle st |}.

(** Modelled from the spec: section 4.4, [rollback()] discards the private
    buffer; no WAL mutation occurs. *)
Definition rollback (pages : list (PageNumber * bytes)) (st : state) : state := st.

(** Modelled from the spec: sections 4.4 and 5, the operations clients
    interleave on one coordinator, each under the coordinating lock.  A
    rejected [release] leaves the state as it is. *)
Inductive op :=
| Op_commit (pages : list (PageNumber * bytes))
| Op_rollback (pages : list (PageNumber * bytes))
| Op_capture
| Op_release (s : Snapshot).

Definition step (o : op) (st : state) : state :=
  match o with
  | Op_commit pages => commit pages st
  | Op_rollback pages => rollback pages st
  | Op_capture => (capture st).2
  | Op_release s => match release s st with inr st' => st' | inl _ => st end
  end.

Definition run (ops : list op) (st : state) : state :=
  fold_left (fun st o => step o st) ops st.

Definition commits (cs : list (list (PageNumber * bytes))) (st : state) : state :=
  run (map Op_commit cs) st.

Definition is_commit (o : op) : bool :=
  match o with Op_commit _ => true | _ => false end.

(** The page lists of the commits among the operations [ops], in order. *)
Definition committed_pages (ops : list op) : list (list (PageNumber * bytes)) :=
  omap (fun o => match o with Op_commit pages => Some pages | _ => None end) ops.

(** The number of commits among the operations [ops]. *)
Fixpoint commits_in (ops : list op) : N :=
  match ops with
  | [] => 0
  | o :: ops' => (if is_commit o then 1 else 0) + commits_in ops'
  end.

(** *** The WAL file and recovery (sections 4.2 and 6) *)

(** Modelled from the spec: section 6, one frame as written to the WAL
    file: the frame, its [FrameChecksum], and on a commit's last frame the
    commit marker with its check over all frames since the previous
    marker. *)
Record wal_record := {
  rec_frame : Frame;
  rec_checksum : N;
  rec_marker : option N
}.

(** Modelled from the spec: sections 6 and 8, what a reopened WAL file
    holds: frames written whole and, where a write was cut short, the
    leading bytes of a frame.  The specification fixes the fields of a frame
    and not the bytes of the marker; the file is the sequence of its
    frames. *)
Inductive disk_item :=
| Whole (r : wal_record)
| Torn (fragment : bytes).

Section Recovery.

(** The checksum of one frame and the check of a commit marker; the
    specification fixes neither function. *)
Variable frame_checksum : Frame -> N.
Variable commit_check : list Frame -> N.

(** The records of the frames [fs] of one commit, [prev] being its frames
    already written: the marker goes on the last frame. *)
Fixpoint seal (prev fs : list Frame) : list wal_record :=
  match fs with
  | [] => []
  | f :: fs' =>
      {| rec_frame := f;
         rec_checksum := frame_checksum f;
         rec_marker := match fs' with
                       | [] => Some (commit_check (prev ++ [f]))
                       | _ :: _ => None
                       end |}
      :: seal (prev ++ [f]) fs'
  end.

(** Modelled from the spec: section 4.2, [appendFrames] on the file: all
    frame payloads, then the single trailing commit marker. *)
Definition disk_appendFrames (seq : CommitSequence) (pages : list (PageNumber * bytes))
    (d : list disk_item) : list disk_item :=
  d ++ map Whole (seal [] (mkFrames seq pages)).

(** Modelled from the spec: sections 4.2 and 6, recovery on open: frames
    are accepted up to the last commit marker that verifies; a frame that
    is incomplete or fails its checksum ends the scan, and the frames
    after the last verified marker are discarded. *)
Fixpoint scan (pending : list Frame) (d : list disk_item) : list Frame :=
  match d with
  | [] => []
  | Torn _ :: _ => []
  | Whole r :: d' =>
      if decide (rec_checksum r = frame_checksum (rec_frame r)) then
        let pending' := pending ++ [rec_frame r] in
        match rec_marker r with
        | None => scan pending' d'
        | Some c =>
            if decide (c = commit_check pending') then pending' ++ scan [] d'
            else []
        end
      else []
  end.

Definition recover (d : list disk_item) : list Frame := scan [] d.

(** The file after the commits [cs], the first of them with sequence
    [first], and the frames those commits hold. *)
Fixpoint disk_commits (first : CommitSequence) (cs : list (list (PageNumber * bytes)))
    : list disk_item :=
  match cs with
  | [] => []
  | c :: cs' => disk_appendFrames first c [] ++ disk_commits (first + 1) cs'
  end.

End Recovery.

Fixpoint frames_commits (first : CommitSequence) (cs : list (list (PageNumber * bytes)))
    : list Frame :=
  match cs with
  | [] => []
  | c :: cs' => mkFrames first c ++ frames_commits (first + 1) cs'
  end.

(** Modelled from the spec: section 8, a crash during a write: the first
    [n] frames of the file survive, followed by the fragment of the frame
    being written, if any. *)
Definition truncate (n : nat) (fragment : option bytes) (d : list disk_item) : list disk_item :=
  take n d ++ match fragment with Some b => [Torn b] | None => [] end.

(** How many of the leading commits of [cs] lie whole within the first [n]
    frames of the file. *)
Fixpoint complete_commits (n : nat) (cs : list (list (PageNumber * bytes))) : nat :=
  match cs with
  | [] => 0
  | c :: cs' =>
      if (length c <=? n)%nat then S (complete_commits (n - length c) cs') else 0%nat
  end.

(** *** Invariants of the coordinator *)

(** A handle that was issued and is no longer live. *)
Definition released (h : nat) (st : state) : Prop :=
  live st !! h = None /\ (h < next_handle st)%nat.

(** No frame of the WAL is beyond the ReadMark. *)
Definition wal_bounded (st : state) : Prop :=
  Forall (fun f => frame_seq f <= read_mark st) (wal st).

(** The WAL holds its frames in commit order. *)
Definition wal_sorted (st : state) : Prop :=
  StronglySorted (fun f g => frame_seq f <= frame_seq g) (wal st).

(** Handles are never reused, no Snapshot is ahead of the ReadMark, and
    the reference count of a boundary is the number of live handles that
    pin it. *)
Definition registry_ok (st : state) : Prop :=
  (forall h b, live st !! h = Some b -> (h < next_handle st)%nat /\ b <= read_mark st)
  /\ (forall b, default 0%nat (refcount st !! b) = holders b (live st)).

End Engine.

(* ===================================================================== *)
(** ** A reference library *)
(* ===================================================================== *)

(** One library that honours the contracts of [Shim]: the documented
    behaviour of [sqlite3_config(SQLITE_CONFIG_LOG, ...)], which is refused
    once the library is initialized, and of the boolean options of
    [sqlite3_db_config].  Each connection carries the storage state of
    [Engine].  It instantiates the statements made for every library. *)
Module Reference.
Import Shim.

(** Result codes of <sqlite3.h>. *)
Definition SQLITE_ERROR : Z := 1.
Definition SQLITE_MISUSE : Z := 21.

Record library := {
  initialized : bool;
  xLog : option (errorLogCallback * ptr);
  flags : sqlite3 -> dbconfig_option -> bool;
  storage : sqlite3 -> Engine.state
}.

Definition set_flag (db : sqlite3) (op : dbconfig_option) (v : bool)
    (fl : sqlite3 -> dbconfig_option -> bool) : sqlite3 -> dbconfig_option -> bool :=
  fun db' op' => if decide (db' = db /\ op' = op) then v else fl db' op'.

Definition exec (c : ext_call) (s : library) : library * Z :=
  match c with
  | sqlite3_config SQLITE_CONFIG_LOG (f :: a :: _) =>
      if initialized s then (s, SQLITE_MISUSE)
      else ({| initialized := initialized s;
               xLog := Some (va_arg_ptr f, va_arg_ptr a);
               flags := flags s;
               storage := storage s |}, SQLITE_OK)
  | sqlite3_config SQLITE_CONFIG_LOG _ => (s, SQLITE_MISUSE)
  | sqlite3_db_config db op (onoff :: _ :: _) =>
      let v := va_arg_int onoff in
      let fl := if 0 <? v then set_flag db op true (flags s)
                else if v =? 0 then set_flag db op false (flags s)
                else flags s in
      ({| initialized := initialized s;
          xLog := xLog s;
          flags := fl;
          storage := storage s |}, SQLITE_OK)
  | sqlite3_db_config _ _ _ => (s, SQLITE_ERROR)
  end.

Definition dqs (s : library) (db : sqlite3) (op : dbconfig_option) : Z :=
  if flags s db op then 1 else 0.

(** A library before [sqlite3_initialize], and one after it. *)
Definition fresh : library :=
  {| initialized := false;
     xLog := None;
     flags := fun _ _ => true;
     storage := fun _ => Engine.init |}.

Definition started : library :=
  {| initialized := true;
     xLog := None;
     flags := fun _ _ => true;
     storage := fun _ => Engine.init |}.

End Reference.

(* ===================================================================== *)
(** ** Clients of the header *)
(* ===================================================================== *)

(** A client uses the header by calling its three wrappers, any number of
    times, in any order and on any connections. *)
Module Client.
Import Shim.

(** One call of a wrapper of shim.h. *)
Inductive wrapper_call :=
| Register (callback : errorLogCallback)
| Disable (db : sqlite3)
| Enable (db : sqlite3).

Section Session.

(** [SQLITE_VERSION_NUMBER] of the <sqlite3.h> the client is built with. *)
Variable SQLITE_VERSION_NUMBER : Z.

Definition invoke (w : wrapper_call) : stmt unit :=
  match w with
  | Register callback => registerErrorLogCallback callback
  | Disable db => disableDoubleQuotedStringLiterals SQLITE_VERSION_NUMBER db
  | Enable db => enableDoubleQuotedStringLiterals SQLITE_VERSION_NUMBER db
  end.

(** The wrapper calls [ws] made one after the other. *)
Fixpoint session (ws : list wrapper_call) : stmt unit :=
  match ws with
  | [] => Return tt
  | w :: ws' => invoke w ;;; session ws'
  end.

End Session.

(** The value the last toggle of connection [db] among [ws] asks for. *)
Fixpoint last_toggle (db : sqlite3) (ws : list wrapper_call) : option Z :=
  match ws with
  | [] => None
  | w :: ws' =>
      match last_toggle db ws' with
      | Some v => Some v
      | None =>
          match w with
          | Register _ => None
          | Disable d => if decide (d = db) then Some 0 else None
          | Enable d => if decide (d = db) then Some 1 else None
          end
      end
  end.

(** [c] is a call that the wrapper call [w] asks for: the registration of
    its callback with context 0, or the setting of a flag of its connection
    to its value with no result pointer. *)
Definition call_of (w : wrapper_call) (c : ext_call) : Prop :=
  match w with
  | Register callback => c = sqlite3_config SQLITE_CONFIG_LOG [Arg_fn callback; Arg_int 0]
  | Disable db => exists op, c = sqlite3_db_config db op [Arg_int 0; Arg_ptr NULL]
  | Enable db => exists op, c = sqlite3_db_config db op [Arg_int 1; Arg_ptr NULL]
  end.

Definition is_register (w : wrapper_call) : bool :=
  match w with Register _ => true | _ => false end.

(** The number of registrations and of toggles among [ws]. *)
Fixpoint registrations (ws : list wrapper_call) : nat :=
  match ws with
  | [] => 0
  | w :: ws' => ((if is_register w then 1 else 0) + registrations ws')%nat
  end.

Fixpoint toggles (ws : list wrapper_call) : nat :=
  match ws with
  | [] => 0
  | w :: ws' => ((if is_register w then 0 else 1) + toggles ws')%nat
  end.

End Client.

(* ===================================================================== *)
(** ** Properties of the shim *)
(* ===================================================================== *)

Module ShimSpec.
Import Shim.

Section RunLemmas.
Context {lib : Type}.
Variable exec : ext_call -> lib -> lib * Z.

Lemma run_call_ (c : ext_call) (s : lib) :
  run exec (call_ c) s = ((exec c s).1, tt).
Proof. unfold call_; simpl. by destruct (exec c s). Qed.

Lemma run_bind {A B} (p : stmt A) (f : A -> stmt B) (s : lib) :
  run exec (bind p f) s = run exec (f (run exec p s).2) (run exec p s).1.
Proof.
  revert s; induction p as [a | c k IH]; intros s; simpl; [done |].
  destruct (exec c s) as [s' r]. apply IH.
Qed.

Lemma calls_bind {A B} (p : stmt A) (f : A -> stmt B) (s : lib) :
  calls exec (bind p f) s
  = calls exec p s ++ calls exec (f (run exec p s).2) (run exec p s).1.
Proof.
  revert s; induction p as [a | c k IH]; intros s; simpl; [done |].
  destruct (exec c s) as [s' r]. by rewrite IH.
Qed.

(** A program changes the library through its calls and nothing else. *)
Lemma run_exec_all {A} (p : stmt A) (s : lib) :
  (run exec p s).1 = exec_all exec (calls exec p s) s.
Proof.
  revert s; induction p as [a | c k IH]; intros s; simpl; [done |].
  destruct (exec c s) as [s' r] eqn:E. unfold exec_all; simpl.
  rewrite E; simpl. apply IH.
Qed.

(** Result codes that no continuation reads do not matter. *)
Lemma run_with_result_codes_call_ (rc : ext_call -> lib -> Z) (c : ext_call) (s : lib) :
  run (with_result_codes exec rc) (call_ c) s = run exec (call_ c) s.
Proof. unfold call_, with_result_codes; simpl. by destruct (exec c s). Qed.

End RunLemmas.

Lemma version_new (ver : Z) : 3029000 <= ver -> (3029000 <=? ver) = true.
Proof. intros H. by apply Z.leb_le. Qed.

Lemma version_old (ver : Z) : ver < 3029000 -> (3029000 <=? ver) = false.
Proof. intros H. by apply Z.leb_gt. Qed.

(** The reference library honours both contracts. *)
Lemma reference_db_config : db_config_contract Reference.exec Reference.dqs.
Proof.
  split.
  - intros s db op onoff [-> | ->]; unfold Reference.dqs; simpl;
      unfold Reference.set_flag; by rewrite decide_True.
  - intros s db op onoff db' op' Hv Hne.
    assert (Hno : ~ (db' = db /\ op' = op)) by (intros [-> ->]; by apply Hne).
    destruct Hv as [-> | ->]; unfold Reference.dqs; simpl;
      unfold Reference.set_flag; by rewrite decide_False.
Qed.

Lemma reference_config_log : config_log_contract Reference.exec Reference.xLog.
Proof.
  split. intros s f a; simpl.
  destruct (Reference.initialized s); simpl; [discriminate | done].
Qed.

Section Calls.
Context {lib : Type}.
Variable exec : ext_call -> lib -> lib * Z.

Lemma run_Call {A} (c : ext_call) (k : Z -> stmt A) (s : lib) :
  run exec (Call c k) s = run exec (k (exec c s).2) (exec c s).1.
Proof. simpl. by destruct (exec c s). Qed.

Lemma calls_Call {A} (c : ext_call) (k : Z -> stmt A) (s : lib) :
  calls exec (Call c k) s = c :: calls exec (k (exec c s).2) (exec c s).1.
Proof. simpl. by destruct (exec c s). Qed.

End Calls.

(** The bodies selected by [#if SQLITE_VERSION_NUMBER >= 3029000]. *)
Lemma disable_new (ver : Z) (db : sqlite3) :
  3029000 <= ver ->
  disableDoubleQuotedStringLiterals ver db
  = Call (sqlite3_db_config db SQLITE_DBCONFIG_DQS_DDL [Arg_int 0; Arg_ptr NULL]) (fun _ =>
    Call (sqlite3_db_config db SQLITE_DBCONFIG_DQS_DML [Arg_int 0; Arg_ptr NULL]) (fun _ =>
    Return tt)).
Proof.
  intros H. unfold disableDoubleQuotedStringLiterals. by rewrite version_new.
Qed.

Lemma enable_new (ver : Z) (db : sqlite3) :
  3029000 <= ver ->
  enableDoubleQuotedStringLiterals ver db
  = Call (sqlite3_db_config db SQLITE_DBCONFIG_DQS_DDL [Arg_int 1; Arg_ptr NULL]) (fun _ =>
    Call (sqlite3_db_config db SQLITE_DBCONFIG_DQS_DML [Arg_int 1; Arg_ptr NULL]) (fun _ =>
    Return tt)).
Proof.
  intros H. unfold enableDoubleQuotedStringLiterals. by rewrite version_new.
Qed.

(** The bodies selected by [#else]. *)
Lemma disable_old (ver : Z) (db : sqlite3) :
  ver < 3029000 -> disableDoubleQuotedStringLiterals ver db = Return tt.
Proof.
  intros H. unfold disableDoubleQuotedStringLiterals. by rewrite version_old.
Qed.

Lemma enable_old (ver : Z) (db : sqlite3) :
  ver < 3029000 -> enableDoubleQuotedStringLiterals ver db = Return tt.
Proof.
  intros H. unfold enableDoubleQuotedStringLiterals. by rewrite version_old.
Qed.

(** Two calls setting both flags of [db] to [onoff] leave both at [onoff]. *)
Lemma set_both_flags {lib : Type} (exec : ext_call -> lib -> lib * Z)
    (dqs : lib -> sqlite3 -> dbconfig_option -> Z) (db : sqlite3) (onoff : Z) (s : lib) :
  db_config_contract exec dqs ->
  onoff = 0 \/ onoff = 1 ->
  let s' :=
    (run exec
       (Call (sqlite3_db_config db SQLITE_DBCONFIG_DQS_DDL [Arg_int onoff; Arg_ptr NULL]) (fun _ =>
        Call (sqlite3_db_config db SQLITE_DBCONFIG_DQS_DML [Arg_int onoff; Arg_ptr NULL]) (fun _ =>
        Return tt))) s).1 in
  dqs s' db SQLITE_DBCONFIG_DQS_DDL = onoff /\ dqs s' db SQLITE_DBCONFIG_DQS_DML = onoff.
Proof.
  intros [Hsets Hkeeps] Hv. rewrite !run_Call; simpl. split.
  - rewrite Hkeeps by (done || congruence). by apply Hsets.
  - by apply Hsets.
Qed.

(** The wrappers on the reference library, built against 3.35.0 and
    against 3.28.0. *)
Example disable_calls_new :
  calls Reference.exec (disableDoubleQuotedStringLiterals 3035000 7) Reference.fresh
  = [sqlite3_db_config 7 SQLITE_DBCONFIG_DQS_DDL [Arg_int 0; Arg_ptr NULL];
     sqlite3_db_config 7 SQLITE_DBCONFIG_DQS_DML [Arg_int 0; Arg_ptr NULL]].
Proof. reflexivity. Qed.

Example enable_calls_old :
  calls Reference.exec (enableDoubleQuotedStringLiterals 3028000 7) Reference.fresh = [].
Proof. reflexivity. Qed.

Example disable_other_connection :
  let s := (run Reference.exec (disableDoubleQuotedStringLiterals 3035000 7) Reference.fresh).1 in
  Reference.dqs s 7 SQLITE_DBCONFIG_DQS_DDL = 0
  /\ Reference.dqs s 8 SQLITE_DBCONFIG_DQS_DDL = 1
  /\ Reference.xLog s = None.
Proof. vm_compute. repeat split. Qed.

Example register_refused_when_started :
  Reference.exec (sqlite3_config SQLITE_CONFIG_LOG [Arg_fn 4096; Arg_int 0]) Reference.started
  = (Reference.started, Reference.SQLITE_MISUSE).
Proof. reflexivity. Qed.

(** C1: compiled against SQLite 3.29.0 or newer,
    [disableDoubleQuotedStringLiterals(db)] is the call of [sqlite3_db_config]
    on [db] with [SQLITE_DBCONFIG_DQS_DDL] and value 0 followed by the one
    with [SQLITE_DBCONFIG_DQS_DML] and value 0, and nothing else;
    [enableDoubleQuotedStringLiterals(db)] is the same two calls with value
    1.  On every library whose [sqlite3_db_config] sets the flag it is given,
    both flags of [db] are 0 after the first wrapper and 1 after the
    second. *)
Theorem doubleQuotedStringLiterals_set (ver : Z) (db : sqlite3) :
  3029000 <= ver ->
  disableDoubleQuotedStringLiterals ver db
  = Call (sqlite3_db_config db SQLITE_DBCONFIG_DQS_DDL [Arg_int 0; Arg_ptr NULL]) (fun _ =>
    Call (sqlite3_db_config db SQLITE_DBCONFIG_DQS_DML [Arg_int 0; Arg_ptr NULL]) (fun _ =>
    Return tt))
  /\ enableDoubleQuotedStringLiterals ver db
     = Call (sqlite3_db_config db SQLITE_DBCONFIG_DQS_DDL [Arg_int 1; Arg_ptr NULL]) (fun _ =>
       Call (sqlite3_db_config db SQLITE_DBCONFIG_DQS_DML [Arg_int 1; Arg_ptr NULL]) (fun _ =>
       Return tt))
  /\ forall (lib : Type) (exec : ext_call -> lib -> lib * Z)
            (dqs : lib -> sqlite3 -> dbconfig_option -> Z),
       db_config_contract exec dqs ->
       forall s : lib,
         dqs (run exec (disableDoubleQuotedStringLiterals ver db) s).1 db SQLITE_DBCONFIG_DQS_DDL = 0
         /\ dqs (run exec (disableDoubleQuotedStringLiterals ver db) s).1 db SQLITE_DBCONFIG_DQS_DML = 0
         /\ dqs (run exec (enableDoubleQuotedStringLiterals ver db) s).1 db SQLITE_DBCONFIG_DQS_DDL = 1
         /\ dqs (run exec (enableDoubleQuotedStringLiterals ver db) s).1 db SQLITE_DBCONFIG_DQS_DML = 1.
Proof.
  intros Hver. split; [by apply disable_new |]. split; [by apply enable_new |].
  intros lib exec dqs Hc s.
  rewrite (disable_new ver db Hver), (enable_new ver db Hver).
  destruct (set_both_flags exec dqs db 0 s Hc) as [H1 H2]; [by left |].
  destruct (set_both_flags exec dqs db 1 s Hc) as [H3 H4]; [by right |].
  auto.
Qed.

Lemma doubleQuotedStringLiterals_set_witness :
  let off := (run Reference.exec (disableDoubleQuotedStringLiterals 3029000 7) Reference.fresh).1 in
  let on := (run Reference.exec (enableDoubleQuotedStringLiterals 3029000 7) off).1 in
  Reference.dqs off 7 SQLITE_DBCONFIG_DQS_DDL = 0
  /\ Reference.dqs off 7 SQLITE_DBCONFIG_DQS_DML = 0
  /\ Reference.dqs on 7 SQLITE_DBCONFIG_DQS_DDL = 1
  /\ Reference.dqs on 7 SQLITE_DBCONFIG_DQS_DML = 1.
Proof.
  intros off on.
  pose proof (doubleQuotedStringLiterals_set 3029000 7 ltac:(lia)) as (_ & _ & H).
  pose proof (H _ Reference.exec Reference.dqs reference_db_config Reference.fresh)
    as (H1 & H2 & _ & _).
  pose proof (H _ Reference.exec Reference.dqs reference_db_config off)
    as (_ & _ & H3 & H4).
  exact (conj H1 (conj H2 (conj H3 H4))).
Defined.

(** C2: [registerErrorLogCallback(cb)] is one call of [sqlite3_config] with
    [SQLITE_CONFIG_LOG], [cb] and 0, whose result is dropped: on every
    library it makes that call and no other, leaves the library in the state
    that call leaves it in, and where the call reports [SQLITE_OK] on a
    library that registers what it is given, [cb] is the registered
    error-log callback. *)
Theorem registerErrorLogCallback_passthrough (cb : errorLogCallback) :
  registerErrorLogCallback cb
  = Call (sqlite3_config SQLITE_CONFIG_LOG [Arg_fn cb; Arg_int 0]) (fun _ => Return tt)
  /\ forall (lib : Type) (exec : ext_call -> lib -> lib * Z) (s : lib),
       calls exec (registerErrorLogCallback cb) s
       = [sqlite3_config SQLITE_CONFIG_LOG [Arg_fn cb; Arg_int 0]]
       /\ run exec (registerErrorLogCallback cb) s
          = ((exec (sqlite3_config SQLITE_CONFIG_LOG [Arg_fn cb; Arg_int 0]) s).1, tt)
       /\ forall logger : lib -> option (errorLogCallback * ptr),
            config_log_contract exec logger ->
            (exec (sqlite3_config SQLITE_CONFIG_LOG [Arg_fn cb; Arg_int 0]) s).2 = SQLITE_OK ->
            fst <$> logger (run exec (registerErrorLogCallback cb) s).1 = Some cb.
Proof.
  split; [done |]. intros lib exec s. split; [| split].
  - unfold registerErrorLogCallback, call_. by rewrite calls_Call.
  - unfold registerErrorLogCallback. apply run_call_.
  - intros logger [Hreg] Hok. unfold registerErrorLogCallback.
    rewrite run_call_; simpl. by rewrite (Hreg s cb (Arg_int 0) Hok).
Qed.

Lemma registerErrorLogCallback_passthrough_witness :
  fst <$> Reference.xLog (run Reference.exec (registerErrorLogCallback 4096) Reference.fresh).1
  = Some 4096.
Proof.
  pose proof (registerErrorLogCallback_passthrough 4096) as (_ & H).
  pose proof (H _ Reference.exec Reference.fresh) as (_ & _ & Hreg).
  exact (Hreg Reference.xLog reference_config_log eq_refl).
Defined.

(** Registering the null function pointer: logging then invokes nothing. *)
Example register_null_callback_logs_nothing :
  deliver (Reference.xLog (run Reference.exec (registerErrorLogCallback NULL) Reference.fresh).1)
    14 "unable to open database file"
  = None.
Proof. reflexivity. Qed.

(** C9: the context argument [registerErrorLogCallback(cb)] passes to
    [sqlite3_config] is the constant 0, read by the library as the null
    pointer, whatever [cb] is; so where the registration is accepted, every
    invocation the library makes when it logs a message is an invocation of
    [cb] with [pArg] null: a non-null [cb] receives every message with a
    null [pArg], and with a null [cb] nothing is invoked. *)
Theorem registerErrorLogCallback_null_context (cb : errorLogCallback) :
  forall (lib : Type) (exec : ext_call -> lib -> lib * Z) (s : lib),
    (exists a : c_arg,
       calls exec (registerErrorLogCallback cb) s
       = [sqlite3_config SQLITE_CONFIG_LOG [Arg_fn cb; a]]
       /\ a = Arg_int 0 /\ va_arg_ptr a = NULL)
    /\ forall logger : lib -> option (errorLogCallback * ptr),
         config_log_contract exec logger ->
         (exec (sqlite3_config SQLITE_CONFIG_LOG [Arg_fn cb; Arg_int 0]) s).2 = SQLITE_OK ->
         forall (iErrCode : Z) (zMsg : string),
           deliver (logger (run exec (registerErrorLogCallback cb) s).1) iErrCode zMsg
           = (if decide (cb = NULL) then None
              else Some {| inv_fn := cb; inv_pArg := NULL;
                           inv_iErrCode := iErrCode; inv_zMsg := zMsg |})
           /\ forall inv : invocation,
                deliver (logger (run exec (registerErrorLogCallback cb) s).1) iErrCode zMsg
                = Some inv ->
                inv_fn inv = cb /\ cb <> NULL /\ inv_pArg inv = NULL
                /\ inv_iErrCode inv = iErrCode /\ inv_zMsg inv = zMsg.
Proof.
  intros lib exec s. split.
  - exists (Arg_int 0). split; [| done].
    unfold registerErrorLogCallback, call_. by rewrite calls_Call.
  - intros logger [Hreg] Hok iErrCode zMsg. unfold registerErrorLogCallback.
    rewrite run_call_; cbn [fst]. rewrite (Hreg s cb (Arg_int 0) Hok).
    cbn [deliver va_arg_ptr]. split; [done |].
    intros inv. destruct (decide (cb = NULL)) as [Heq | Hne]; [discriminate |].
    by intros [= <-].
Qed.

Lemma registerErrorLogCallback_null_context_witness :
  deliver (Reference.xLog (run Reference.exec (registerErrorLogCallback 4096) Reference.fresh).1)
    14 "unable to open database file"
  = Some {| inv_fn := 4096; inv_pArg := NULL;
            inv_iErrCode := 14; inv_zMsg := "unable to open database file" |}.
Proof.
  pose proof (registerErrorLogCallback_null_context 4096 _ Reference.exec Reference.fresh)
    as (_ & H).
  exact (proj1 (H Reference.xLog reference_config_log eq_refl 14
                  "unable to open database file"%string)).
Defined.

(** C10: the three wrappers return [void] and read no result code: on every
    library, whatever codes [sqlite3_config] and [sqlite3_db_config] return,
    each wrapper makes the same calls, leaves the same state and returns the
    same unit value.  On a library that is already initialized the
    registration is refused with [SQLITE_MISUSE] and the wrapper returns as
    it does on success. *)
Theorem wrappers_discard_result_codes (ver : Z) (cb : errorLogCallback) (db : sqlite3) :
  (forall (lib : Type) (exec : ext_call -> lib -> lib * Z) (rc : ext_call -> lib -> Z) (s : lib),
     let exec' := with_result_codes exec rc in
     (run exec' (registerErrorLogCallback cb) s = run exec (registerErrorLogCallback cb) s
      /\ calls exec' (registerErrorLogCallback cb) s = calls exec (registerErrorLogCallback cb) s)
     /\ (run exec' (disableDoubleQuotedStringLiterals ver db) s
         = run exec (disableDoubleQuotedStringLiterals ver db) s
         /\ calls exec' (disableDoubleQuotedStringLiterals ver db) s
            = calls exec (disableDoubleQuotedStringLiterals ver db) s)
     /\ (run exec' (enableDoubleQuotedStringLiterals ver db) s
         = run exec (enableDoubleQuotedStringLiterals ver db) s
         /\ calls exec' (enableDoubleQuotedStringLiterals ver db) s
            = calls exec (enableDoubleQuotedStringLiterals ver db) s)
     /\ (run exec (registerErrorLogCallback cb) s).2 = tt
     /\ (run exec (disableDoubleQuotedStringLiterals ver db) s).2 = tt
     /\ (run exec (enableDoubleQuotedStringLiterals ver db) s).2 = tt)
  /\ (Reference.exec (sqlite3_config SQLITE_CONFIG_LOG [Arg_fn cb; Arg_int 0]) Reference.started).2
     = Reference.SQLITE_MISUSE
  /\ run Reference.exec (registerErrorLogCallback cb) Reference.started
     = (Reference.started, tt).
Proof.
  split; [| done].
  intros lib exec rc s exec'. subst exec'.
  unfold registerErrorLogCallback, disableDoubleQuotedStringLiterals,
    enableDoubleQuotedStringLiterals, call_.
  destruct (3029000 <=? ver); cbn [bind];
    rewrite ?run_Call, ?calls_Call; cbn [run calls with_result_codes fst snd];
    rewrite ?run_Call, ?calls_Call; cbn [run calls with_result_codes fst snd];
    done.
Qed.

(** C3: built against a SQLite older than 3.29.0 both toggles have an empty
    body: they make no call and return the library exactly as they found it.
    Built against any version, they leave unchanged every part of the
    library's state that [sqlite3_db_config] on [db] with a
    double-quoted-string-literal option leaves unchanged, the page store
    and the WAL of every connection among them. *)
Theorem toggles_frame (ver : Z) (db : sqlite3) :
  (ver < 3029000 ->
   disableDoubleQuotedStringLiterals ver db = Return tt
   /\ enableDoubleQuotedStringLiterals ver db = Return tt
   /\ forall (lib : Type) (exec : ext_call -> lib -> lib * Z) (s : lib),
        run exec (disableDoubleQuotedStringLiterals ver db) s = (s, tt)
        /\ run exec (enableDoubleQuotedStringLiterals ver db) s = (s, tt)
        /\ calls exec (disableDoubleQuotedStringLiterals ver db) s = []
        /\ calls exec (enableDoubleQuotedStringLiterals ver db) s = [])
  /\ forall (lib : Type) (exec : ext_call -> lib -> lib * Z) (X : Type) (obs : lib -> X),
       (forall (op : dbconfig_option) (onoff : Z) (s : lib),
          onoff = 0 \/ onoff = 1 ->
          obs (exec (sqlite3_db_config db op [Arg_int onoff; Arg_ptr NULL]) s).1 = obs s) ->
       forall s : lib,
         obs (run exec (disableDoubleQuotedStringLiterals ver db) s).1 = obs s
         /\ obs (run exec (enableDoubleQuotedStringLiterals ver db) s).1 = obs s.
Proof.
  split.
  - intros Hold. rewrite (disable_old ver db Hold), (enable_old ver db Hold).
    repeat split.
  - intros lib exec X obs Hobs s.
    destruct (Z.le_gt_cases 3029000 ver) as [Hnew | Hold].
    + rewrite (disable_new ver db Hnew), (enable_new ver db Hnew).
      rewrite !run_Call; simpl. split; rewrite !Hobs; auto.
    + rewrite (disable_old ver db Hold), (enable_old ver db Hold). done.
Qed.

Lemma toggles_frame_witness :
  (run Reference.exec (disableDoubleQuotedStringLiterals 3028000 7) Reference.fresh
   = (Reference.fresh, tt))
  /\ (forall s : Reference.library,
        Reference.storage (run Reference.exec (disableDoubleQuotedStringLiterals 3035000 7) s).1
        = Reference.storage s
        /\ Reference.storage (run Reference.exec (enableDoubleQuotedStringLiterals 3035000 7) s).1
           = Reference.storage s).
Proof.
  split.
  - pose proof (toggles_frame 3028000 7) as (H & _).
    pose proof (H ltac:(lia)) as (_ & _ & Hrun).
    exact (proj1 (Hrun _ Reference.exec Reference.fresh)).
  - pose proof (toggles_frame 3035000 7) as (_ & H).
    exact (H _ Reference.exec _ Reference.storage (fun op onoff s _ => eq_refl)).
Defined.

(** C4: when <sqlite3.h> does not define [SQLITE_ENABLE_SNAPSHOT], the header
    declares the five functions [sqlite3_snapshot_get], [_open], [_cmp],
    [_free] and [_recover] and defines none of them, and defines the struct
    [sqlite3_snapshot] with the single member [hidden], an array of 48
    [unsigned char], 48 bytes in all; when the macro is defined, the header
    declares none of these. *)
Theorem snapshot_declarations_conditional :
  declared_only (shim_declarations false)
  ≡ₚ ["sqlite3_snapshot_get"; "sqlite3_snapshot_open"; "sqlite3_snapshot_cmp";
      "sqlite3_snapshot_free"; "sqlite3_snapshot_recover"]
  /\ (forall name : string,
        name ∈ declared_only (shim_declarations false) ->
        name ∉ defined_functions (shim_declarations false))
  /\ structs (shim_declarations false)
     = [("sqlite3_snapshot", [("hidden", T_array T_unsigned_char 48)])]
  /\ struct_sizeof [("hidden", T_array T_unsigned_char 48)] = Some 48%N
  /\ declared_only (shim_declarations true) = []
  /\ structs (shim_declarations true) = []
  /\ defined_functions (shim_declarations true) = defined_functions (shim_declarations false).
Proof.
  split; [| split; [| done]].
  - cbn. do 2 apply perm_skip. apply perm_swap.
  - intros name Hin Hdef; cbn in Hin, Hdef.
    rewrite !elem_of_cons, elem_of_nil in Hdef.
    destruct Hdef as [-> | [-> | [-> | []]]];
      by repeat (apply elem_of_cons in Hin as [Hin | Hin]; [discriminate |]);
         apply elem_of_nil in Hin.
Qed.

Lemma snapshot_declarations_conditional_witness :
  "sqlite3_snapshot_cmp" ∉ defined_functions (shim_declarations false).
Proof.
  pose proof snapshot_declarations_conditional as (_ & H & _).
  apply (H "sqlite3_snapshot_cmp"%string).
  cbn. rewrite !elem_of_cons. auto.
Defined.

End ShimSpec.

(* ===================================================================== *)
(** ** Properties of the engine *)
(* ===================================================================== *)

Module EngineSpec.
Import Engine.
Local Open Scope N_scope.

(** *** Runs of the coordinator *)

Lemma run_cons (o : op) (ops : list op) (st : state) :
  run (o :: ops) st = run ops (step o st).
Proof. reflexivity. Qed.

Lemma run_app (ops1 ops2 : list op) (st : state) :
  run (ops1 ++ ops2) st = run ops2 (run ops1 st).
Proof. unfold run. apply fold_left_app. Qed.

Lemma release_wal (s : Snapshot) (st st' : state) :
  release s st = inr st' -> wal st' = wal st /\ read_mark st' = read_mark st.
Proof.
  unfold release. destruct (live st !! snap_handle s); [| discriminate].
  intros [= <-]. done.
Qed.

Lemma mkFrames_seq (seq : CommitSequence) (pages : list (PageNumber * bytes)) :
  Forall (fun g => frame_seq g = seq) (mkFrames seq pages).
Proof.
  apply Forall_forall. intros g Hg.
  by apply list_elem_of_fmap in Hg as (p & -> & _).
Qed.

Lemma mkFrames_sorted (seq : CommitSequence) (pages : list (PageNumber * bytes)) :
  StronglySorted (fun f g => frame_seq f <= frame_seq g) (mkFrames seq pages).
Proof.
  induction pages as [| p pages IH]; simpl; constructor; [done |].
  eapply Forall_impl; [apply mkFrames_seq |]. simpl. intros g ->. lia.
Qed.

(** One operation only appends to the WAL, and what it appends carries a
    sequence beyond the ReadMark it found. *)
Lemma step_wal (o : op) (st : state) :
  exists added,
    wal (step o st) = wal st ++ added
    /\ Forall (fun g => read_mark st < frame_seq g <= read_mark (step o st)) added
    /\ read_mark st <= read_mark (step o st)
    /\ StronglySorted (fun f g => frame_seq f <= frame_seq g) added.
Proof.
  destruct o as [pages | pages | | s]; simpl.
  - exists (mkFrames (read_mark st + 1) pages).
    split; [done |]. split; [| split; [lia | apply mkFrames_sorted]].
    eapply Forall_impl; [apply mkFrames_seq |]. simpl. intros g ->. lia.
  - exists []. rewrite app_nil_r. repeat split; try constructor; done.
  - exists []. rewrite app_nil_r. repeat split; try constructor; done.
  - exists []. rewrite app_nil_r.
    destruct (release s st) as [e | st'] eqn:E.
    + repeat split; try constructor; done.
    + apply release_wal in E as [-> ->]. repeat split; try constructor; done.
Qed.

Lemma run_wal (ops : list op) (st : state) :
  exists added,
    wal (run ops st) = wal st ++ added
    /\ Forall (fun g => read_mark st < frame_seq g <= read_mark (run ops st)) added
    /\ read_mark st <= read_mark (run ops st).
Proof.
  revert st; induction ops as [| o ops IH]; intros st.
  - exists []. simpl. rewrite app_nil_r. repeat split; [constructor | done].
  - rewrite run_cons.
    destruct (step_wal o st) as (a1 & E1 & F1 & L1 & _).
    destruct (IH (step o st)) as (a2 & E2 & F2 & L2).
    exists (a1 ++ a2). rewrite E2, E1, app_assoc. split; [done |]. split; [| lia].
    apply Forall_app. split.
    + eapply Forall_impl; [exact F1 |]. simpl. intros g Hg. lia.
    + eapply Forall_impl; [exact F2 |]. simpl. intros g Hg. lia.
Qed.

Lemma run_read_mark (ops : list op) (st : state) :
  read_mark (run ops st) = read_mark st + commits_in ops.
Proof.
  revert st; induction ops as [| o ops IH]; intros st.
  - simpl. lia.
  - rewrite run_cons, IH.
    destruct o as [pages | pages | | s]; simpl; unfold rollback; try lia.
    destruct (release s st) as [e | st'] eqn:E; [lia |].
    apply release_wal in E as [_ ->]. lia.
Qed.

Lemma run_wal_bounded (ops : list op) : wal_bounded (run ops init).
Proof.
  destruct (run_wal ops init) as (added & E & F & _).
  unfold wal_bounded. rewrite E. simpl.
  eapply Forall_impl; [exact F |]. simpl. intros g Hg. lia.
Qed.

Lemma step_wal_sorted (o : op) (st : state) :
  wal_bounded st -> wal_sorted st -> wal_bounded (step o st) /\ wal_sorted (step o st).
Proof.
  unfold wal_bounded, wal_sorted. intros Hb Hs.
  destruct (step_wal o st) as (added & E & F & L & Ha). rewrite E. split.
  - apply Forall_app. split.
    + eapply Forall_impl; [exact Hb |]. simpl. intros g Hg. lia.
    + eapply Forall_impl; [exact F |]. simpl. intros g Hg. lia.
  - apply StronglySorted_app. split; [| done].
    intros f g Hf Hg.
    pose proof (proj1 (Forall_forall _ _) Hb f Hf).
    pose proof (proj1 (Forall_forall _ _) F g Hg). simpl in *. lia.
Qed.

Lemma run_wal_sorted (ops : list op) (st : state) :
  wal_bounded st -> wal_sorted st -> wal_bounded (run ops st) /\ wal_sorted (run ops st).
Proof.
  revert st; induction ops as [| o ops IH]; intros st Hb Hs; [done |].
  rewrite run_cons. destruct (step_wal_sorted o st Hb Hs) as [Hb' Hs']. by apply IH.
Qed.

Lemma init_wal_ok : wal_bounded init /\ wal_sorted init.
Proof. split; constructor. Qed.

(** *** The frame index *)

Lemma lookup_None (w : list Frame) (pn : PageNumber) (S : CommitSequence) :
  frameIndex_lookup w pn S = None <-> Forall (fun g => visible pn S g = false) w.
Proof.
  induction w as [| f w IH]; simpl.
  - split; [constructor | done].
  - destruct (frameIndex_lookup w pn S) as [g |] eqn:E.
    + split; [done |]. intros H. apply Forall_cons in H as [_ H].
      apply IH in H. discriminate.
    + destruct (visible pn S f) eqn:V.
      * split; [done |]. intros H. apply Forall_cons in H as [H _]. congruence.
      * split; [| done]. intros _. constructor; [done |]. by apply IH.
Qed.

Lemma lookup_Some (w : list Frame) (pn : PageNumber) (S : CommitSequence) (f : Frame) :
  frameIndex_lookup w pn S = Some f ->
  exists w1 w2,
    w = w1 ++ f :: w2 /\ visible pn S f = true
    /\ Forall (fun g => visible pn S g = false) w2.
Proof.
  induction w as [| f0 w IH]; simpl; [done |].
  destruct (frameIndex_lookup w pn S) as [g |] eqn:E.
  - intros [= ->]. destruct (IH eq_refl) as (w1 & w2 & -> & V & F).
    by exists (f0 :: w1), w2.
  - destruct (visible pn S f0) eqn:V; [| done]. intros [= ->].
    exists [], w. repeat split; [done |]. by apply lookup_None.
Qed.

Lemma lookup_app_invisible (w1 w2 : list Frame) (pn : PageNumber) (S : CommitSequence) :
  Forall (fun g => visible pn S g = false) w2 ->
  frameIndex_lookup (w1 ++ w2) pn S = frameIndex_lookup w1 pn S.
Proof.
  intros F. induction w1 as [| f w1 IH]; simpl.
  - by apply lookup_None.
  - by rewrite IH.
Qed.

Lemma visible_spec (pn : PageNumber) (S : CommitSequence) (f : Frame) :
  visible pn S f = true <-> frame_page f = pn /\ frame_seq f <= S.
Proof.
  unfold visible. rewrite andb_true_iff, N.eqb_eq, N.leb_le. done.
Qed.

Lemma beyond_invisible (pn : PageNumber) (S : CommitSequence) (w : list Frame) :
  Forall (fun g => S < frame_seq g) w -> Forall (fun g => visible pn S g = false) w.
Proof.
  intros F. eapply Forall_impl; [exact F |]. simpl. intros g Hg.
  destruct (visible pn S g) eqn:V; [| done].
  apply visible_spec in V as [_ V]. lia.
Qed.

(** In a WAL in commit order the frame the index returns is the newest
    one the reader may see. *)
Lemma lookup_newest (w : list Frame) (pn : PageNumber) (S : CommitSequence) (f : Frame) :
  StronglySorted (fun f g => frame_seq f <= frame_seq g) w ->
  frameIndex_lookup w pn S = Some f ->
  f ∈ w /\ frame_page f = pn /\ frame_seq f <= S
  /\ forall g, g ∈ w -> frame_page g = pn -> frame_seq g <= S -> frame_seq g <= frame_seq f.
Proof.
  intros Hs Hl. destruct (lookup_Some w pn S f Hl) as (w1 & w2 & -> & V & F).
  apply visible_spec in V as [Hp Hq].
  split; [apply elem_of_app; right; by left |]. split; [done |]. split; [done |].
  intros g Hg Hgp Hgq.
  apply elem_of_app in Hg as [Hg | Hg].
  - apply StronglySorted_app in Hs as (Hs & _ & _). apply (Hs g f Hg). by left.
  - apply elem_of_cons in Hg as [-> | Hg]; [lia |].
    pose proof (proj1 (Forall_forall _ _) F g Hg) as Hv. simpl in Hv.
    assert (visible pn S g = true) by (by apply visible_spec). congruence.
Qed.

Lemma frames_commits_beyond (first : CommitSequence) (cs : list (list (PageNumber * bytes))) :
  Forall (fun g => first <= frame_seq g) (frames_commits first cs).
Proof.
  revert first; induction cs as [| c cs IH]; intros first; simpl; [constructor |].
  apply Forall_app. split.
  - eapply Forall_impl; [apply mkFrames_seq |]. simpl. intros g ->. lia.
  - eapply Forall_impl; [apply IH |]. simpl. intros g Hg. lia.
Qed.

(** The WAL after a run is the WAL before it followed by the frames of the
    commits of the run, numbered from the ReadMark on. *)
Lemma run_wal_frames (ops : list op) (st : state) :
  wal (run ops st)
  = wal st ++ frames_commits (read_mark st + 1) (committed_pages ops).
Proof.
  revert st; induction ops as [| o ops IH]; intros st.
  - simpl. by rewrite app_nil_r.
  - rewrite run_cons, IH. destruct o as [pages | pages | | s]; simpl; try done.
    + unfold appendFrames. by rewrite <- app_assoc.
    + destruct (release s st) as [e | st'] eqn:E; [done |].
      by apply release_wal in E as [-> ->].
Qed.

Lemma commits_wal (cs : list (list (PageNumber * bytes))) :
  wal (commits cs init) = frames_commits 1 cs
  /\ read_mark (commits cs init) = N.of_nat (length cs).
Proof.
  unfold commits. rewrite run_wal_frames, run_read_mark. simpl.
  assert (committed_pages (map Op_commit cs) = cs) as ->.
  { induction cs as [| c cs IH]; simpl; [done |]. unfold committed_pages in *.
    simpl. by rewrite IH. }
  split; [done |].
  induction cs as [| c cs IH]; simpl; [done |]. lia.
Qed.

(** Section 8, first scenario: page 7 written "A" and committed (sequence
    1), a Snapshot captured, the page written "B" and committed (sequence
    2): a read at the Snapshot's boundary returns "A", one at a new
    Snapshot's boundary returns "B". *)
Example scenario_read_at_boundary :
  let st1 := commit [(7, [Byte.x41])] init in
  let s1 := (capture st1).1 in
  let st2 := commit [(7, [Byte.x42])] (capture st1).2 in
  boundary s1 = 1
  /\ frame_bytes <$> frameIndex_lookup (wal st2) 7 (boundary s1) = Some [Byte.x41]
  /\ frame_bytes <$> frameIndex_lookup (wal st2) 7 (boundary (capture st2).1)
     = Some [Byte.x42]
  /\ frameIndex_lookup (wal st2) 8 (boundary s1) = None.
Proof. vm_compute. repeat split. Qed.

(** Section 8, second scenario: one live Snapshot at sequence 1 and commits
    at sequences 1 and 2: the minimum retained sequence is 1; with the
    Snapshot released it is ReadMark+1. *)
Example scenario_minRetainedSequence :
  let st := run [Op_commit [(7, [Byte.x41])]; Op_capture; Op_commit [(7, [Byte.x42])]] init in
  minRetainedSequence st = 1
  /\ minRetainedSequence (step (Op_release {| snap_handle := 0; boundary := 1 |}) st) = 3.
Proof. vm_compute. split; reflexivity. Qed.

(** C5: take any run of the coordinator, capture a Snapshot, and let any
    operations follow, commits among them.  Every frame those later commits
    produce carries a [CommitSequence] beyond the Snapshot's boundary [S];
    a read at [S] finds what it found when the Snapshot was captured: the
    newest frame of the page with [CommitSequence <= S], a frame that was
    in the WAL at capture, and never a frame with [CommitSequence > S]; and
    it finds nothing only when the page has no frame at or before [S]. *)
Theorem snapshot_isolation (before later : list op) (pn : PageNumber) :
  let st := run before init in
  let snap := (capture st).1 in
  let st' := run later (capture st).2 in
  wal st' = wal st ++ frames_commits (boundary snap + 1) (committed_pages later)
  /\ Forall (fun g => boundary snap < frame_seq g)
       (frames_commits (boundary snap + 1) (committed_pages later))
  /\ frameIndex_lookup (wal st') pn (boundary snap)
     = frameIndex_lookup (wal st) pn (boundary snap)
  /\ (forall f : Frame,
        frameIndex_lookup (wal st') pn (boundary snap) = Some f ->
        f ∈ wal st /\ frame_page f = pn /\ frame_seq f <= boundary snap
        /\ forall g : Frame,
             g ∈ wal st' -> frame_page g = pn -> frame_seq g <= boundary snap ->
             frame_seq g <= frame_seq f)
  /\ (frameIndex_lookup (wal st') pn (boundary snap) = None ->
      forall g : Frame, g ∈ wal st' -> frame_page g = pn -> boundary snap < frame_seq g).
Proof.
  intros st snap st'.
  assert (wal st' = wal st ++ frames_commits (boundary snap + 1) (committed_pages later))
    as Hwal by (unfold st'; by rewrite run_wal_frames).
  assert (Forall (fun g => boundary snap < frame_seq g)
            (frames_commits (boundary snap + 1) (committed_pages later))) as Hbeyond.
  { eapply Forall_impl; [apply frames_commits_beyond |]. simpl. intros g Hg. lia. }
  assert (frameIndex_lookup (wal st') pn (boundary snap)
          = frameIndex_lookup (wal st) pn (boundary snap)) as Hsame.
  { rewrite Hwal. apply lookup_app_invisible. by apply beyond_invisible. }
  destruct (run_wal_sorted before init) as [Hb Hs]; [apply init_wal_ok .. |].
  fold st in Hb, Hs.
  assert (wal_sorted st') as Hs'.
  { unfold st'. apply run_wal_sorted; [exact Hb | exact Hs]. }
  split; [exact Hwal |]. split; [exact Hbeyond |]. split; [exact Hsame |]. split.
  - intros f Hf.
    destruct (lookup_newest _ _ _ _ Hs' Hf) as (_ & Hp & Hq & Hmax).
    rewrite Hsame in Hf.
    destruct (lookup_newest _ _ _ _ Hs Hf) as (Hin & _ & _ & _). done.
  - intros Hnone g Hg Hp.
    apply lookup_None in Hnone.
    pose proof (proj1 (Forall_forall _ _) Hnone g Hg) as Hv. cbv beta in Hv.
    destruct (decide (frame_seq g <= boundary snap)) as [Hle | Hgt]; [| lia].
    assert (visible pn (boundary snap) g = true) by (by apply visible_spec).
    congruence.
Qed.

Lemma snapshot_isolation_witness :
  {| frame_page := 7; frame_seq := 1; frame_bytes := [Byte.x41] |}
    ∈ wal (run [Op_commit [(7, [Byte.x41])]] init)
  /\ (1 <= boundary (capture (run [Op_commit [(7, [Byte.x41])]] init)).1)%N.
Proof.
  pose proof (snapshot_isolation [Op_commit [(7, [Byte.x41])]]
                [Op_commit [(7, [Byte.x42])]; Op_capture; Op_commit [(7, [Byte.x43])]] 7)
    as (_ & _ & _ & H & _).
  pose proof (H {| frame_page := 7; frame_seq := 1; frame_bytes := [Byte.x41] |} eq_refl)
    as (Hin & _ & Hle & _).
  exact (conj Hin Hle).
Defined.

Lemma capture_boundary (st : state) : boundary (capture st).1 = read_mark st.
Proof. reflexivity. Qed.

Lemma capture_read_mark (st : state) : read_mark (capture st).2 = read_mark st.
Proof. reflexivity. Qed.

(** C7: [compare] answers [Before], [Same] or [After] exactly as the
    boundary of its first argument is below, equal to or above the boundary
    of its second.  It is reflexive, exchanging the arguments exchanges
    [Before] and [After], it is transitive and total; and of two Snapshots
    captured one after the other the first compares [Same] when no commit
    came between the captures and [Before] when one did. *)
Theorem compare_orders_by_boundary (s1 s2 : Snapshot) :
  (compare s1 s2 = Before <-> boundary s1 < boundary s2)
  /\ (compare s1 s2 = Same <-> boundary s1 = boundary s2)
  /\ (compare s1 s2 = After <-> boundary s2 < boundary s1)
  /\ compare s1 s1 = Same
  /\ compare s2 s1
     = match compare s1 s2 with Before => After | Same => Same | After => Before end
  /\ (forall s3 : Snapshot,
        compare s1 s2 <> After -> compare s2 s3 <> After -> compare s1 s3 <> After)
  /\ (compare s1 s2 <> After \/ compare s2 s1 <> After)
  /\ (forall before between : list op,
        let c1 := capture (run before init) in
        let c2 := capture (run between c1.2) in
        compare c1.1 c2.1 = if decide (commits_in between = 0) then Same else Before).
Proof.
  unfold compare.
  split; [| split; [| split; [| split; [| split; [| split; [| split]]]]]].
  - destruct (N.compare_spec (boundary s1) (boundary s2)); split; done || lia.
  - destruct (N.compare_spec (boundary s1) (boundary s2)); split; done || lia.
  - destruct (N.compare_spec (boundary s1) (boundary s2)); split; done || lia.
  - by rewrite N.compare_refl.
  - rewrite (N.compare_antisym (boundary s1) (boundary s2)).
    by destruct (boundary s1 ?= boundary s2).
  - intros s3.
    destruct (N.compare_spec (boundary s1) (boundary s2));
      destruct (N.compare_spec (boundary s2) (boundary s3));
      destruct (N.compare_spec (boundary s1) (boundary s3)); done || lia.
  - destruct (N.compare_spec (boundary s1) (boundary s2));
      destruct (N.compare_spec (boundary s2) (boundary s1)); (by left) || (by right) || lia.
  - intros before between.
    rewrite !capture_boundary, (run_read_mark between), capture_read_mark.
    case_decide as Hz.
    + rewrite Hz, N.add_0_r. by rewrite N.compare_refl.
    + assert (read_mark (run before init)
              < read_mark (run before init) + commits_in between) as Hlt by lia.
      by apply N.compare_lt_iff in Hlt as ->.
Qed.

Lemma compare_orders_by_boundary_witness :
  compare {| snap_handle := 0; boundary := 1 |} {| snap_handle := 2; boundary := 5 |} <> After.
Proof.
  pose proof (compare_orders_by_boundary {| snap_handle := 0; boundary := 1 |}
                {| snap_handle := 1; boundary := 2 |}) as (_ & _ & _ & _ & _ & H & _).
  apply (H {| snap_handle := 2; boundary := 5 |}); discriminate.
Defined.

(** *** Recovery of the WAL file *)

Section RecoveryFacts.
Variable frame_checksum : Frame -> N.
Variable commit_check : list Frame -> N.

Local Abbreviation seal := (seal frame_checksum commit_check).
Local Abbreviation scan := (scan frame_checksum commit_check).
Local Abbreviation recover := (recover frame_checksum commit_check).
Local Abbreviation disk_commits := (disk_commits frame_checksum commit_check).

Lemma seal_length (prev fs : list Frame) : length (seal prev fs) = length fs.
Proof.
  revert prev; induction fs as [| f fs IH]; intros prev; simpl; [done |].
  by rewrite IH.
Qed.

(** A commit written whole is accepted whole, with what was pending. *)
Lemma scan_seal (prev fs : list Frame) (rest : list disk_item) :
  fs <> [] ->
  scan prev (map Whole (seal prev fs) ++ rest) = (prev ++ fs) ++ scan [] rest.
Proof.
  revert prev; induction fs as [| f fs IH]; intros prev Hne; [done |].
  simpl. rewrite decide_True by done.
  destruct fs as [| f' fs].
  - simpl. by rewrite decide_True.
  - rewrite IH by discriminate. f_equal. by rewrite <- app_assoc.
Qed.

Lemma scan_commit (fs : list Frame) (rest : list disk_item) :
  scan [] (map Whole (seal [] fs) ++ rest) = fs ++ scan [] rest.
Proof.
  destruct fs as [| f fs]; [done |]. by rewrite scan_seal.
Qed.

(** A commit cut before its last frame leaves nothing. *)
Lemma scan_cut (prev fs : list Frame) (n : nat) (fragment : option bytes) :
  (n < length fs)%nat ->
  scan prev (take n (map Whole (seal prev fs))
             ++ match fragment with Some b => [Torn b] | None => [] end) = [].
Proof.
  revert prev n; induction fs as [| f fs IH]; intros prev n Hn; simpl in Hn; [lia |].
  destruct n as [| n].
  - simpl. by destruct fragment.
  - simpl. rewrite decide_True by done.
    destruct fs as [| f' fs]; [simpl in Hn; lia |].
    apply IH. simpl in *. lia.
Qed.

Lemma recover_truncate (first : CommitSequence) (cs : list (list (PageNumber * bytes)))
    (n : nat) (fragment : option bytes) :
  recover (truncate n fragment (disk_commits first cs))
  = frames_commits first (take (complete_commits n cs) cs).
Proof.
  unfold recover, truncate.
  revert first n; induction cs as [| c cs IH]; intros first n.
  - simpl. rewrite take_nil. simpl. by destruct fragment.
  - simpl. unfold disk_appendFrames. rewrite app_nil_l, take_app, length_map, seal_length.
    assert (length (mkFrames first c) = length c) as Hlen by apply length_map.
    rewrite Hlen.
    destruct (length c <=? n)%nat eqn:E.
    + apply Nat.leb_le in E.
      rewrite take_ge by (rewrite length_map, seal_length; lia).
      rewrite <- app_assoc, scan_commit, IH. done.
    + apply Nat.leb_gt in E.
      replace (n - length c)%nat with 0%nat by lia. rewrite take_0, app_nil_r.
      simpl. apply scan_cut. lia.
Qed.

Lemma recover_whole (first : CommitSequence) (cs : list (list (PageNumber * bytes))) :
  recover (disk_commits first cs) = frames_commits first cs.
Proof.
  unfold recover. revert first; induction cs as [| c cs IH]; intros first; simpl; [done |].
  unfold disk_appendFrames. by rewrite app_nil_l, scan_commit, IH.
Qed.

End RecoveryFacts.

Lemma complete_commits_le (n : nat) (cs : list (list (PageNumber * bytes))) :
  (complete_commits n cs <= length cs)%nat.
Proof.
  revert n; induction cs as [| c cs IH]; intros n; simpl; [lia |].
  destruct (length c <=? n)%nat; [| lia]. specialize (IH (n - length c)%nat). lia.
Qed.

(** Two commits of two frames each, with a sum as frame checksum and a
    count as commit check: cut inside the second commit only the first is
    recovered; a marker that does not verify ends the scan. *)
Example recover_cut_in_second_commit :
  recover (fun f => frame_page f + frame_seq f) (fun fs => N.of_nat (length fs))
    (truncate 3 (Some [Byte.x00; Byte.x01])
       (disk_commits (fun f => frame_page f + frame_seq f) (fun fs => N.of_nat (length fs)) 1
          [[(1, [Byte.x41]); (2, [Byte.x42])]; [(1, [Byte.x43]); (3, [Byte.x44])]]))
  = mkFrames 1 [(1, [Byte.x41]); (2, [Byte.x42])].
Proof. vm_compute. reflexivity. Qed.

Example recover_bad_marker :
  recover (fun f => frame_page f + frame_seq f) (fun fs => N.of_nat (length fs))
    [Whole {| rec_frame := {| frame_page := 1; frame_seq := 1; frame_bytes := [] |};
              rec_checksum := 2; rec_marker := Some 1 |};
     Whole {| rec_frame := {| frame_page := 2; frame_seq := 2; frame_bytes := [] |};
              rec_checksum := 4; rec_marker := Some 9 |}]
  = [{| frame_page := 1; frame_seq := 1; frame_bytes := [] |}].
Proof. vm_compute. reflexivity. Qed.

(** C6: all frames of a commit carry its [CommitSequence], so a reader at
    any boundary sees either all of them or none, and the commit appends
    them to the WAL together; once appended and until the ReadMark
    advances, a read at any boundary up to the ReadMark finds what it found
    before.  On the file, after any commits [cs], cutting
    the file after its first [n] frames, with or without the fragment of a
    frame behind them, and reopening recovers the frames of the leading
    commits that lie whole within those [n] frames, each with all its
    frames, and nothing of any other commit nor of the fragment; this is
    the WAL of the coordinator after those commits alone. *)
Theorem appendFrames_atomic (frame_checksum : Frame -> N) (commit_check : list Frame -> N)
    (cs : list (list (PageNumber * bytes))) (n : nat) (fragment : option bytes) :
  (forall (ops : list op) (pages : list (PageNumber * bytes)) (S : CommitSequence),
     let st := run ops init in
     wal (commit pages st) = wal st ++ mkFrames (read_mark st + 1) pages
     /\ (Forall (fun f => frame_seq f <= S) (mkFrames (read_mark st + 1) pages)
         \/ Forall (fun f => S < frame_seq f) (mkFrames (read_mark st + 1) pages))
     /\ (S <= read_mark st ->
         forall pn : PageNumber,
           frameIndex_lookup (appendFrames (read_mark st + 1) pages (wal st)) pn S
           = frameIndex_lookup (wal st) pn S))
  /\ (forall first : CommitSequence,
        recover frame_checksum commit_check
          (truncate n fragment (disk_commits frame_checksum commit_check first cs))
        = frames_commits first (take (complete_commits n cs) cs))
  /\ recover frame_checksum commit_check
       (truncate n fragment (disk_commits frame_checksum commit_check 1 cs))
     = wal (commits (take (complete_commits n cs) cs) init)
  /\ (complete_commits n cs <= length cs)%nat
  /\ recover frame_checksum commit_check (disk_commits frame_checksum commit_check 1 cs)
     = wal (commits cs init).
Proof.
  split; [| split; [| split; [| split]]].
  - intros ops pages S st. split; [done |]. split.
    + destruct (decide (read_mark st + 1 <= S)) as [Hle | Hgt].
      * left. eapply Forall_impl; [apply mkFrames_seq |]. simpl. intros g ->. done.
      * right. eapply Forall_impl; [apply mkFrames_seq |]. simpl. intros g ->. lia.
    + intros HS pn. unfold appendFrames.
      apply lookup_app_invisible, beyond_invisible.
      eapply Forall_impl; [apply mkFrames_seq |]. simpl. intros g ->. lia.
  - intros first. apply recover_truncate.
  - rewrite recover_truncate. by rewrite (proj1 (commits_wal _)).
  - apply complete_commits_le.
  - rewrite recover_whole. by rewrite (proj1 (commits_wal _)).
Qed.

Lemma appendFrames_atomic_witness :
  frameIndex_lookup
    (appendFrames 2 [(7, [Byte.x42])] (wal (run [Op_commit [(7, [Byte.x41])]] init))) 7 1
  = frameIndex_lookup (wal (run [Op_commit [(7, [Byte.x41])]] init)) 7 1.
Proof.
  pose proof (appendFrames_atomic (fun f => frame_page f + frame_seq f)
                (fun fs => N.of_nat (length fs)) [] 0 None) as (H & _).
  pose proof (H [Op_commit [(7, [Byte.x41])]] [(7, [Byte.x42])] 1) as (_ & _ & Hsame).
  apply Hsame. vm_compute. discriminate.
Defined.

(** *** The registry of live Snapshots *)

Lemma holders_insert (b b0 : CommitSequence) (h : nat) (lv : gmap nat CommitSequence) :
  lv !! h = None ->
  holders b (<[h := b0]> lv) = if decide (b0 = b) then S (holders b lv) else holders b lv.
Proof.
  intros Hn. unfold holders. rewrite map_filter_insert. simpl.
  destruct (decide (b0 = b)) as [Heq | Hne].
  - apply map_size_insert_None. apply map_lookup_filter_None. by left.
  - by rewrite delete_id.
Qed.

Lemma holders_delete (b b0 : CommitSequence) (h : nat) (lv : gmap nat CommitSequence) :
  lv !! h = Some b0 ->
  holders b (delete h lv) = if decide (b0 = b) then pred (holders b lv) else holders b lv.
Proof.
  intros Hs. unfold holders. rewrite map_filter_delete, map_size_delete.
  destruct (filter (fun hb : nat * CommitSequence => hb.2 = b) lv !! h) as [c |] eqn:E.
  - apply map_lookup_filter_Some in E as [E1 E2]. simpl in E2.
    rewrite Hs in E1. injection E1 as <-. by rewrite decide_True.
  - apply map_lookup_filter_None in E as [E | E]; [congruence |].
    specialize (E b0 Hs). simpl in E. by rewrite decide_False.
Qed.

Lemma holders_positive (b : CommitSequence) (h : nat) (lv : gmap nat CommitSequence) :
  lv !! h = Some b -> (0 < holders b lv)%nat.
Proof.
  intros Hs. unfold holders.
  assert (size (filter (fun hb : nat * CommitSequence => hb.2 = b) lv) <> 0%nat); [| lia].
  apply (map_size_ne_0_lookup_2 _ h). exists b. by apply map_lookup_filter_Some.
Qed.

Lemma pin_count (b b0 : CommitSequence) (rc : gmap CommitSequence nat) :
  default 0%nat (pin b0 rc !! b)
  = if decide (b0 = b) then S (default 0%nat (rc !! b)) else default 0%nat (rc !! b).
Proof.
  unfold pin. case_decide as H.
  - subst. by rewrite lookup_insert_eq.
  - by rewrite lookup_insert_ne.
Qed.

Lemma unpin_count (b b0 : CommitSequence) (rc : gmap CommitSequence nat) :
  default 0%nat (unpin b0 rc !! b)
  = if decide (b0 = b) then pred (default 0%nat (rc !! b)) else default 0%nat (rc !! b).
Proof.
  unfold unpin. case_decide as H.
  - subst. destruct (rc !! b) as [[| [| n]] |] eqn:E;
      by rewrite ?lookup_insert_eq, ?lookup_delete_eq.
  - destruct (rc !! b0) as [[| [| n]] |] eqn:E;
      by rewrite ?lookup_insert_ne, ?lookup_delete_ne.
Qed.

Lemma init_registry_ok : registry_ok init.
Proof.
  split.
  - intros h b Hl. simpl in Hl. by rewrite lookup_empty in Hl.
  - intros b. unfold holders. simpl. by rewrite map_filter_empty, map_size_empty.
Qed.

Lemma release_Some (s : Snapshot) (st : state) (b : CommitSequence) :
  live st !! snap_handle s = Some b ->
  release s st
  = inr {| wal := wal st; read_mark := read_mark st;
           live := delete (snap_handle s) (live st);
           refcount := unpin b (refcount st);
           next_handle := next_handle st |}.
Proof. intros H. unfold release. by rewrite H. Qed.

Lemma release_None (s : Snapshot) (st : state) :
  live st !! snap_handle s = None -> release s st = inl SnapshotNotLive.
Proof. intros H. unfold release. by rewrite H. Qed.

Lemma step_registry_ok (o : op) (st : state) : registry_ok st -> registry_ok (step o st).
Proof.
  intros [Hlive Hcount]. destruct o as [pages | pages | | s]; simpl.
  - split; simpl; [| done]. intros h b Hl. destruct (Hlive h b Hl). split; [done | lia].
  - done.
  - assert (live st !! next_handle st = None) as Hfresh.
    { destruct (live st !! next_handle st) as [b |] eqn:E; [| done].
      destruct (Hlive _ _ E). lia. }
    split; simpl.
    + intros h b Hl. apply lookup_insert_Some in Hl as [[<- <-] | [Hne Hl]].
      * split; [lia | done].
      * destruct (Hlive h b Hl). split; [lia | done].
    + intros b. rewrite pin_count, holders_insert by done. rewrite Hcount. done.
  - destruct (live st !! snap_handle s) as [b0 |] eqn:E.
    + rewrite (release_Some s st b0 E). split; simpl.
      * intros h b Hl. apply lookup_delete_Some in Hl as [_ Hl]. by apply Hlive.
      * intros b. rewrite unpin_count, (holders_delete b b0) by done. by rewrite Hcount.
    + by rewrite (release_None s st E).
Qed.

Lemma run_registry_ok (ops : list op) (st : state) : registry_ok st -> registry_ok (run ops st).
Proof.
  revert st; induction ops as [| o ops IH]; intros st H; [done |].
  rewrite run_cons. by apply IH, step_registry_ok.
Qed.

(** A released handle stays released: handles are not issued twice. *)
Lemma step_released (h : nat) (o : op) (st : state) : released h st -> released h (step o st).
Proof.
  intros [Hl Hn]. destruct o as [pages | pages | | s]; simpl; try done.
  - split; simpl; [| lia]. rewrite lookup_insert_ne by lia. done.
  - destruct (live st !! snap_handle s) as [b0 |] eqn:E.
    + rewrite (release_Some s st b0 E). split; simpl; [| done].
      destruct (decide (snap_handle s = h)) as [-> | Hne].
      * apply lookup_delete_eq.
      * by rewrite lookup_delete_ne.
    + by rewrite (release_None s st E).
Qed.

Lemma run_released (h : nat) (ops : list op) (st : state) :
  released h st -> released h (run ops st).
Proof.
  revert st; induction ops as [| o ops IH]; intros st H; [done |].
  rewrite run_cons. by apply IH, step_released.
Qed.

(** C8: release a live Snapshot once in any reachable state: the count of
    its boundary, which was positive, goes down by one and no other count
    moves.  From then on, whatever operations follow, a second [release] of
    that Snapshot is rejected with the error [SnapshotNotLive] and leaves
    the whole state, reference counts and minimum retained sequence
    included, as it was; throughout, the count of every boundary is the
    number of live handles that pin it. *)
Theorem release_released_rejected (before between : list op) (s : Snapshot) (st1 : state) :
  release s (run before init) = inr st1 ->
  (exists b : CommitSequence,
     live (run before init) !! snap_handle s = Some b
     /\ (0 < default 0%nat (refcount (run before init) !! b))%nat
     /\ forall b' : CommitSequence,
          default 0%nat (refcount st1 !! b')
          = if decide (b = b') then pred (default 0%nat (refcount (run before init) !! b'))
            else default 0%nat (refcount (run before init) !! b'))
  /\ release s (run between st1) = inl SnapshotNotLive
  /\ step (Op_release s) (run between st1) = run between st1
  /\ refcount (step (Op_release s) (run between st1)) = refcount (run between st1)
  /\ minRetainedSequence (step (Op_release s) (run between st1))
     = minRetainedSequence (run between st1)
  /\ (forall b : CommitSequence,
        default 0%nat (refcount (run between st1) !! b)
        = holders b (live (run between st1))).
Proof.
  intros Hrel.
  pose proof (run_registry_ok before init init_registry_ok) as [Hlive Hcount].
  destruct (live (run before init) !! snap_handle s) as [b |] eqn:E;
    [| by rewrite (release_None _ _ E) in Hrel].
  rewrite (release_Some _ _ b E) in Hrel. injection Hrel as <-.
  match goal with |- context [run between ?st] => set (st1 := st) end.
  assert (released (snap_handle s) st1) as Hrl.
  { split; simpl; [apply lookup_delete_eq | by apply (Hlive _ b)]. }
  apply (run_released _ between) in Hrl. destruct Hrl as [Hnone _].
  assert (registry_ok st1) as Hok1.
  { replace st1 with (step (Op_release s) (run before init)).
    - apply step_registry_ok, run_registry_ok, init_registry_ok.
    - simpl. by rewrite (release_Some _ _ b E). }
  assert (step (Op_release s) (run between st1) = run between st1) as Hstep.
  { simpl. by rewrite (release_None _ _ Hnone). }
  split; [| split; [| split; [| split; [| split]]]].
  - exists b. split; [done |]. split.
    + rewrite Hcount. by apply (holders_positive b (snap_handle s)).
    + intros b'. simpl. apply unpin_count.
  - by apply release_None.
  - exact Hstep.
  - by rewrite Hstep.
  - by rewrite Hstep.
  - apply (run_registry_ok between st1 Hok1).
Qed.

Lemma release_released_rejected_witness :
  release {| snap_handle := 0; boundary := 1 |}
    (run [Op_commit [(2, [])]; Op_capture]
       (step (Op_release {| snap_handle := 0; boundary := 1 |})
          (run [Op_commit [(2, [])]; Op_capture; Op_capture] init)))
  = inl SnapshotNotLive.
Proof.
  refine (proj1 (proj2 (release_released_rejected
                          [Op_commit [(2, [])]; Op_capture; Op_capture]
                          [Op_commit [(2, [])]; Op_capture]
                          {| snap_handle := 0; boundary := 1 |}
                          (step (Op_release {| snap_handle := 0; boundary := 1 |})
                             (run [Op_commit [(2, [])]; Op_capture; Op_capture] init))
                          _))).
  vm_compute. reflexivity.
Defined.

End EngineSpec.

(* ===================================================================== *)
(** ** Properties of sessions of wrapper calls *)
(* ===================================================================== *)

Module ClientSpec.
Import Shim Client ShimSpec.

Section SessionRuns.
Context {lib : Type}.
Variable exec : ext_call -> lib -> lib * Z.
Variable ver : Z.

Lemma run_session_cons (w : wrapper_call) (ws : list wrapper_call) (s : lib) :
  run exec (session ver (w :: ws)) s
  = run exec (session ver ws) (run exec (invoke ver w) s).1.
Proof. simpl. by rewrite run_bind. Qed.

Lemma calls_session_cons (w : wrapper_call) (ws : list wrapper_call) (s : lib) :
  calls exec (session ver (w :: ws)) s
  = calls exec (invoke ver w) s
    ++ calls exec (session ver ws) (run exec (invoke ver w) s).1.
Proof. simpl. by rewrite calls_bind. Qed.

(** The state a wrapper call leaves does not depend on the result codes. *)
Lemma run_invoke_result_codes (rc : ext_call -> lib -> Z) (w : wrapper_call) (s : lib) :
  run (with_result_codes exec rc) (invoke ver w) s = run exec (invoke ver w) s.
Proof.
  destruct w as [cb | db | db]; cbn [invoke];
    unfold registerErrorLogCallback, disableDoubleQuotedStringLiterals,
      enableDoubleQuotedStringLiterals, call_;
    destruct (3029000 <=? ver); cbn [bind];
    rewrite ?run_Call; cbn [run with_result_codes fst snd];
    rewrite ?run_Call; cbn [run with_result_codes fst snd]; done.
Qed.

(** The calls of a wrapper call, whatever the library answers. *)
Lemma calls_invoke (w : wrapper_call) (s : lib) :
  calls exec (invoke ver w) s
  = match w with
    | Register cb => [sqlite3_config SQLITE_CONFIG_LOG [Arg_fn cb; Arg_int 0]]
    | Disable db =>
        if 3029000 <=? ver then
          [sqlite3_db_config db SQLITE_DBCONFIG_DQS_DDL [Arg_int 0; Arg_ptr NULL];
           sqlite3_db_config db SQLITE_DBCONFIG_DQS_DML [Arg_int 0; Arg_ptr NULL]]
        else []
    | Enable db =>
        if 3029000 <=? ver then
          [sqlite3_db_config db SQLITE_DBCONFIG_DQS_DDL [Arg_int 1; Arg_ptr NULL];
           sqlite3_db_config db SQLITE_DBCONFIG_DQS_DML [Arg_int 1; Arg_ptr NULL]]
        else []
    end.
Proof.
  destruct w as [cb | db | db]; cbn [invoke];
    unfold registerErrorLogCallback, disableDoubleQuotedStringLiterals,
      enableDoubleQuotedStringLiterals, call_;
    destruct (3029000 <=? ver); cbn [bind];
    rewrite ?calls_Call; cbn [calls]; rewrite ?calls_Call; cbn [calls]; done.
Qed.

End SessionRuns.

(** Two calls setting both flags of [d] to [onoff] leave every flag of [d]
    at [onoff] and the flags of every other connection as they were. *)
Lemma set_both_flags_all {lib : Type} (exec : ext_call -> lib -> lib * Z)
    (dqs : lib -> sqlite3 -> dbconfig_option -> Z) (d : sqlite3) (onoff : Z) (s : lib)
    (db : sqlite3) (op : dbconfig_option) :
  db_config_contract exec dqs ->
  onoff = 0 \/ onoff = 1 ->
  dqs (run exec
         (Call (sqlite3_db_config d SQLITE_DBCONFIG_DQS_DDL [Arg_int onoff; Arg_ptr NULL]) (fun _ =>
          Call (sqlite3_db_config d SQLITE_DBCONFIG_DQS_DML [Arg_int onoff; Arg_ptr NULL]) (fun _ =>
          Return tt))) s).1 db op
  = if decide (d = db) then onoff else dqs s db op.
Proof.
  intros Hc Hv. case_decide as Hd.
  - subst db. destruct (set_both_flags exec dqs d onoff s Hc Hv) as [H1 H2].
    by destruct op.
  - destruct Hc as [_ Hkeeps]. rewrite !run_Call; simpl.
    rewrite !Hkeeps; [done | done | congruence | done | congruence].
Qed.

(** The flags after one wrapper call. *)
Lemma invoke_flags {lib : Type} (exec : ext_call -> lib -> lib * Z)
    (dqs : lib -> sqlite3 -> dbconfig_option -> Z) (ver : Z) (w : wrapper_call) (s : lib)
    (db : sqlite3) (op : dbconfig_option) :
  db_config_contract exec dqs ->
  (forall s f db op,
     dqs (exec (sqlite3_config SQLITE_CONFIG_LOG [Arg_fn f; Arg_int 0]) s).1 db op
     = dqs s db op) ->
  dqs (run exec (invoke ver w) s).1 db op
  = if 3029000 <=? ver then default (dqs s db op) (last_toggle db [w]) else dqs s db op.
Proof.
  intros Hc Hcfg.
  assert (dqs (run exec (invoke ver w) s).1 db op
          = default (dqs s db op)
              (if 3029000 <=? ver then last_toggle db [w] else None)) as ->;
    [| by destruct (3029000 <=? ver)].
  destruct w as [cb | d | d]; cbn [invoke last_toggle].
  - unfold registerErrorLogCallback. rewrite run_call_. cbn [fst].
    rewrite Hcfg. by destruct (3029000 <=? ver).
  - destruct (3029000 <=? ver) eqn:E.
    + apply Z.leb_le in E. rewrite (disable_new ver d E).
      rewrite (set_both_flags_all exec dqs d 0 s db op Hc) by (by left).
      by destruct (decide (d = db)).
    + apply Z.leb_gt in E. by rewrite (disable_old ver d E).
  - destruct (3029000 <=? ver) eqn:E.
    + apply Z.leb_le in E. rewrite (enable_new ver d E).
      rewrite (set_both_flags_all exec dqs d 1 s db op Hc) by (by right).
      by destruct (decide (d = db)).
    + apply Z.leb_gt in E. by rewrite (enable_old ver d E).
Qed.

Lemma reference_config_keeps_flags (s : Reference.library) (f : errorLogCallback)
    (db : sqlite3) (op : dbconfig_option) :
  Reference.dqs (Reference.exec (sqlite3_config SQLITE_CONFIG_LOG [Arg_fn f; Arg_int 0]) s).1 db op
  = Reference.dqs s db op.
Proof. simpl. by destruct (Reference.initialized s). Qed.

(** X1: in a session built against SQLite 3.29.0 or newer, on a library
    whose [sqlite3_db_config] sets the flag it is given and whose
    registration of a log callback leaves the flags alone, each
    double-quoted-string-literal flag of each connection ends at the value
    of the last toggle of that connection, and as it started when the
    session has none; built against an older SQLite every flag ends as it
    started. *)
Theorem session_last_toggle_wins {lib : Type} (exec : ext_call -> lib -> lib * Z)
    (dqs : lib -> sqlite3 -> dbconfig_option -> Z) (ver : Z) (ws : list wrapper_call) :
  db_config_contract exec dqs ->
  (forall s f db op,
     dqs (exec (sqlite3_config SQLITE_CONFIG_LOG [Arg_fn f; Arg_int 0]) s).1 db op
     = dqs s db op) ->
  forall (s : lib) (db : sqlite3) (op : dbconfig_option),
    dqs (run exec (session ver ws) s).1 db op
    = if 3029000 <=? ver then default (dqs s db op) (last_toggle db ws) else dqs s db op.
Proof.
  intros Hc Hcfg s db op. revert s.
  induction ws as [| w ws IH]; intros s.
  - simpl. by destruct (3029000 <=? ver).
  - rewrite run_session_cons, IH, (invoke_flags exec dqs ver w _ db op Hc Hcfg).
    destruct (3029000 <=? ver); [| done].
    cbn [last_toggle]. by destruct (last_toggle db ws).
Qed.

Lemma session_last_toggle_wins_witness :
  Reference.dqs
    (run Reference.exec
       (session 3035000 [Disable 7; Register 4096; Enable 8; Enable 7; Disable 8])
       Reference.fresh).1 7 SQLITE_DBCONFIG_DQS_DML
  = 1.
Proof.
  exact (session_last_toggle_wins Reference.exec Reference.dqs 3035000
           [Disable 7; Register 4096; Enable 8; Enable 7; Disable 8]
           reference_db_config reference_config_keeps_flags
           Reference.fresh 7 SQLITE_DBCONFIG_DQS_DML).
Defined.

(** X2: on a library whose [sqlite3_db_config] sets the flag it is given,
    disabling the double-quoted string literals of a connection whose two
    flags are 1 and enabling them again restores every flag of every
    connection, and so does enabling and disabling again where the two
    flags were 0, whatever SQLite the header is built against. *)
Theorem toggle_round_trip {lib : Type} (exec : ext_call -> lib -> lib * Z)
    (dqs : lib -> sqlite3 -> dbconfig_option -> Z) (ver : Z) (db : sqlite3) (s : lib) :
  db_config_contract exec dqs ->
  (dqs s db SQLITE_DBCONFIG_DQS_DDL = 1 /\ dqs s db SQLITE_DBCONFIG_DQS_DML = 1 ->
   forall (db' : sqlite3) (op : dbconfig_option),
     dqs (run exec (session ver [Disable db; Enable db]) s).1 db' op = dqs s db' op)
  /\ (dqs s db SQLITE_DBCONFIG_DQS_DDL = 0 /\ dqs s db SQLITE_DBCONFIG_DQS_DML = 0 ->
      forall (db' : sqlite3) (op : dbconfig_option),
        dqs (run exec (session ver [Enable db; Disable db]) s).1 db' op = dqs s db' op).
Proof.
  intros Hc.
  destruct (Z.le_gt_cases 3029000 ver) as [Hnew | Hold].
  - split; intros [Hddl Hdml] db' op; rewrite !run_session_cons; cbn [invoke session run fst];
      rewrite (disable_new ver db Hnew), (enable_new ver db Hnew);
      rewrite !(set_both_flags_all exec dqs db _ _ db' op Hc) by auto;
      (destruct (decide (db = db')) as [<- | Hne]; [by destruct op | done]).
  - split; intros _ db' op; rewrite !run_session_cons; cbn [invoke session run fst];
      by rewrite (disable_old ver db Hold), (enable_old ver db Hold).
Qed.

Lemma toggle_round_trip_witness :
  Reference.dqs
    (run Reference.exec (session 3035000 [Disable 7; Enable 7]) Reference.fresh).1
    8 SQLITE_DBCONFIG_DQS_DDL
  = Reference.dqs Reference.fresh 8 SQLITE_DBCONFIG_DQS_DDL
  /\ Reference.dqs
       (run Reference.exec (session 3035000 [Disable 7; Enable 7]) Reference.fresh).1
       7 SQLITE_DBCONFIG_DQS_DML
     = Reference.dqs Reference.fresh 7 SQLITE_DBCONFIG_DQS_DML.
Proof.
  pose proof (toggle_round_trip Reference.exec Reference.dqs 3035000 7 Reference.fresh
                reference_db_config) as (H & _).
  exact (conj (H (conj eq_refl eq_refl) 8 SQLITE_DBCONFIG_DQS_DDL)
              (H (conj eq_refl eq_refl) 7 SQLITE_DBCONFIG_DQS_DML)).
Defined.

Lemma invoke_call_of {lib : Type} (exec : ext_call -> lib -> lib * Z) (ver : Z)
    (w : wrapper_call) (s : lib) (c : ext_call) :
  c ∈ calls exec (invoke ver w) s -> call_of w c.
Proof.
  rewrite calls_invoke. destruct w as [cb | db | db]; simpl.
  - rewrite elem_of_cons, elem_of_nil. by intros [-> | []].
  - destruct (3029000 <=? ver); [| by intros H; apply elem_of_nil in H].
    rewrite !elem_of_cons, elem_of_nil. intros [-> | [-> | []]]; eauto.
  - destruct (3029000 <=? ver); [| by intros H; apply elem_of_nil in H].
    rewrite !elem_of_cons, elem_of_nil. intros [-> | [-> | []]]; eauto.
Qed.

Lemma invoke_calls_length {lib : Type} (exec : ext_call -> lib -> lib * Z) (ver : Z)
    (w : wrapper_call) (s : lib) :
  length (calls exec (invoke ver w) s)
  = ((if is_register w then 1 else 0)
     + (if (3029000 <=? ver)%Z then 2 * (if is_register w then 0 else 1) else 0))%nat.
Proof.
  rewrite calls_invoke. destruct w as [cb | db | db]; simpl;
    by destruct (3029000 <=? ver).
Qed.

(** X3: whatever the library answers, a session makes only calls that one
    of its wrapper calls asks for: a registration of a callback of the
    session with context 0, or the setting of a flag of a connection of the
    session to 0 or 1 with no result pointer.  It makes one call for each
    registration and, built against SQLite 3.29.0 or newer, two for each
    toggle, none for a toggle otherwise; the calls are the same on every
    library and from every state; and built against an older SQLite a
    session without registration leaves the library as it found it. *)
Theorem session_calls_only_asked (ver : Z) (ws : list wrapper_call) :
  forall (lib : Type) (exec : ext_call -> lib -> lib * Z) (s : lib),
    (forall c : ext_call,
       c ∈ calls exec (session ver ws) s -> exists w, w ∈ ws /\ call_of w c)
    /\ length (calls exec (session ver ws) s)
       = (registrations ws + (if (3029000 <=? ver)%Z then 2 * toggles ws else 0))%nat
    /\ (forall (lib' : Type) (exec' : ext_call -> lib' -> lib' * Z) (s' : lib'),
          calls exec' (session ver ws) s' = calls exec (session ver ws) s)
    /\ (ver < 3029000 -> registrations ws = 0%nat ->
        run exec (session ver ws) s = (s, tt)).
Proof.
  induction ws as [| w ws IH]; intros lib exec s.
  - simpl. split; [| split; [| split]]; try done.
    + intros c H. by apply elem_of_nil in H.
    + by destruct (3029000 <=? ver).
  - destruct (IH lib exec (run exec (invoke ver w) s).1) as (IHc & IHl & IHi & IHr).
    split; [| split; [| split]].
    + intros c. rewrite calls_session_cons, elem_of_app. intros [H | H].
      * exists w. split; [by left | by apply (invoke_call_of exec ver w s)].
      * destruct (IHc c H) as (w' & Hin & Hc). exists w'. split; [by right | done].
    + rewrite calls_session_cons, length_app, IHl, invoke_calls_length.
      cbn [registrations toggles]. destruct (3029000 <=? ver); lia.
    + intros lib' exec' s'. rewrite !calls_session_cons, !calls_invoke.
      f_equal. rewrite <- (IHi lib' exec' (run exec' (invoke ver w) s').1). done.
    + intros Hold Hreg. cbn [registrations] in Hreg.
      assert ((run exec (invoke ver w) s).1 = s) as Hs.
      { destruct w as [cb | db | db]; cbn [is_register] in Hreg; [lia | |];
          cbn [invoke];
          by rewrite ?(disable_old ver db Hold), ?(enable_old ver db Hold). }
      rewrite run_session_cons. rewrite Hs in IHr |- *. apply IHr; [done |].
      destruct (is_register w); lia.
Qed.

Lemma session_calls_only_asked_witness :
  run Reference.exec (session 3028000 [Disable 7; Enable 8; Disable 8]) Reference.started
  = (Reference.started, tt).
Proof.
  pose proof (session_calls_only_asked 3028000 [Disable 7; Enable 8; Disable 8]
                _ Reference.exec Reference.started) as (_ & _ & _ & H).
  apply H; [lia | reflexivity].
Defined.

(** X4: a session reads no result code: with the result codes of the
    library replaced by any others, the session leaves the library in the
    same state, so a call that fails changes nothing in what the later
    wrapper calls of the session do. *)
Theorem session_discards_result_codes (ver : Z) (ws : list wrapper_call) :
  forall (lib : Type) (exec : ext_call -> lib -> lib * Z) (rc : ext_call -> lib -> Z) (s : lib),
    run (with_result_codes exec rc) (session ver ws) s = run exec (session ver ws) s.
Proof.
  intros lib exec rc. induction ws as [| w ws IH]; intros s; [done |].
  by rewrite !run_session_cons, run_invoke_result_codes, IH.
Qed.

Lemma run_session_app {lib : Type} (exec : ext_call -> lib -> lib * Z) (ver : Z)
    (ws1 ws2 : list wrapper_call) (s : lib) :
  run exec (session ver (ws1 ++ ws2)) s
  = run exec (session ver ws2) (run exec (session ver ws1) s).1.
Proof.
  revert s; induction ws1 as [| w ws1 IH]; intros s; [done |].
  rewrite <- app_comm_cons, !run_session_cons. apply IH.
Qed.

(** Toggles leave alone what the flag options of [sqlite3_db_config] leave
    alone. *)
Lemma toggles_keep {lib X : Type} (exec : ext_call -> lib -> lib * Z) (obs : lib -> X)
    (ver : Z) (ws : list wrapper_call) (s : lib) :
  (forall db op onoff s,
     onoff = 0 \/ onoff = 1 ->
     obs (exec (sqlite3_db_config db op [Arg_int onoff; Arg_ptr NULL]) s).1 = obs s) ->
  registrations ws = 0%nat ->
  obs (run exec (session ver ws) s).1 = obs s.
Proof.
  intros Hobs. revert s; induction ws as [| w ws IH]; intros s Hreg; [done |].
  cbn [registrations] in Hreg. rewrite run_session_cons, IH by (destruct (is_register w); lia).
  destruct w as [cb | db | db]; cbn [is_register] in Hreg; [lia | |]; cbn [invoke];
    (destruct (Z.le_gt_cases 3029000 ver) as [Hnew | Hold];
     [ rewrite ?(disable_new ver db Hnew), ?(enable_new ver db Hnew);
       rewrite !run_Call; cbn [run fst]; rewrite !Hobs; auto
     | by rewrite ?(disable_old ver db Hold), ?(enable_old ver db Hold) ]).
Qed.

Lemma reference_db_config_keeps_logger (db : sqlite3) (op : dbconfig_option) (onoff : Z)
    (s : Reference.library) :
  onoff = 0 \/ onoff = 1 ->
  Reference.xLog (Reference.exec (sqlite3_db_config db op [Arg_int onoff; Arg_ptr NULL]) s).1
  = Reference.xLog s.
Proof. by intros [-> | ->]. Qed.

(** X5: in a session on a library that registers what it accepts and whose
    flag options leave the log callback alone, once a registration of [cb]
    is accepted and only toggles follow it, the registered error-log
    callback at the end of the session is [cb] with a null context,
    whatever the session did before. *)
Theorem session_logger_after_toggles {lib : Type} (exec : ext_call -> lib -> lib * Z)
    (logger : lib -> option (errorLogCallback * ptr)) (ver : Z)
    (ws1 ws2 : list wrapper_call) (cb : errorLogCallback) (s : lib) :
  config_log_contract exec logger ->
  (forall db op onoff s,
     onoff = 0 \/ onoff = 1 ->
     logger (exec (sqlite3_db_config db op [Arg_int onoff; Arg_ptr NULL]) s).1 = logger s) ->
  registrations ws2 = 0%nat ->
  (exec (sqlite3_config SQLITE_CONFIG_LOG [Arg_fn cb; Arg_int 0])
     (run exec (session ver ws1) s).1).2 = SQLITE_OK ->
  logger (run exec (session ver (ws1 ++ Register cb :: ws2)) s).1 = Some (cb, NULL).
Proof.
  intros [Hreg] Hkeep Hws2 Hok.
  rewrite run_session_app, run_session_cons.
  rewrite (toggles_keep exec logger ver ws2 _ Hkeep Hws2).
  cbn [invoke]. unfold registerErrorLogCallback. rewrite run_call_. cbn [fst].
  by rewrite (Hreg _ cb (Arg_int 0) Hok).
Qed.

Lemma session_logger_after_toggles_witness :
  Reference.xLog
    (run Reference.exec
       (session 3035000 ([Disable 7; Register 512] ++ Register 4096 :: [Enable 7; Disable 8]))
       Reference.fresh).1
  = Some (4096, NULL).
Proof.
  exact (session_logger_after_toggles Reference.exec Reference.xLog 3035000
           [Disable 7; Register 512] [Enable 7; Disable 8] 4096 Reference.fresh
           reference_config_log reference_db_config_keeps_logger eq_refl eq_refl).
Defined.

End ClientSpec.
